(** * AI-UI-Generator backend: resilience and job-orchestration control plane

    A shallow embedding of
      - backend/services/circuit_breaker.py  (module [CircuitBreaker])
      - backend/services/rate_limiter.py     (module [RateLimiter])
      - backend/services/llm_service.py      (module [LLMService])
      - backend/server.py, process_generation (module [Server])

    Conventions.
    - Python [int] is [Z].
    - [time.time()] is a reading of the wall clock.  Every function that
      reads the clock takes the value read as an explicit argument, one
      argument per read, in the order of the reads.  Readings are exact
      numbers ([Z], in units of the clock's resolution); the rounding of
      floating-point subtraction is not modelled.
    - [x or d] on an optional integer is [py_or]: [None] and [0] are falsy.
    - Exceptions are the subclasses of [Exception]; [BaseException]s that
      are not [Exception]s (task cancellation, interpreter exit) are not
      modelled. *)

From stdpp Require Import gmap strings list sorting pretty.
From Stdlib Require Import ZArith Lia.

#[local] Open Scope Z_scope.

(** [max_requests or default], [failure_threshold or int(os.getenv(..))] *)
Definition py_or (x : option Z) (d : Z) : Z :=
  match x with
  | Some v => if decide (v = 0) then d else v
  | None => d
  end.

(* ===================================================================== *)
(** ** services/circuit_breaker.py *)
(* ===================================================================== *)

Module CircuitBreaker.

Inductive CircuitState := CLOSED | OPEN | HALF_OPEN.

#[global] Instance CircuitState_eq_dec : EqDecision CircuitState.
Proof. solve_decision. Defined.

Definition value (s : CircuitState) : string :=
  match s with
  | CLOSED => "closed"
  | OPEN => "open"
  | HALF_OPEN => "half_open"
  end.

Record t := mk {
  name : string;
  failure_threshold : Z;
  timeout_seconds : Z;
  failure_count : Z;
  last_failure_time : option Z;
  state : CircuitState;
  success_count : Z
}.

(** [__init__]; [env_threshold] and [env_timeout] are the values of
    [int(os.getenv("CIRCUIT_BREAKER_THRESHOLD", "5"))] and
    [int(os.getenv("CIRCUIT_BREAKER_TIMEOUT", "60"))]. *)
Definition init (env_threshold env_timeout : Z)
    (failure_threshold timeout_seconds : option Z) (name : string) : t :=
  {| name := name;
     failure_threshold := py_or failure_threshold env_threshold;
     timeout_seconds := py_or timeout_seconds env_timeout;
     failure_count := 0;
     last_failure_time := None;
     state := CLOSED;
     success_count := 0 |}.

Definition _open_circuit (cb : t) : t :=
  {| name := name cb;
     failure_threshold := failure_threshold cb;
     timeout_seconds := timeout_seconds cb;
     failure_count := failure_count cb;
     last_failure_time := last_failure_time cb;
     state := OPEN;
     success_count := 0 |}.

Definition _close_circuit (cb : t) : t :=
  {| name := name cb;
     failure_threshold := failure_threshold cb;
     timeout_seconds := timeout_seconds cb;
     failure_count := 0;
     last_failure_time := last_failure_time cb;
     state := CLOSED;
     success_count := 0 |}.

Definition _half_open_circuit (cb : t) : t :=
  {| name := name cb;
     failure_threshold := failure_threshold cb;
     timeout_seconds := timeout_seconds cb;
     failure_count := failure_count cb;
     last_failure_time := last_failure_time cb;
     state := HALF_OPEN;
     success_count := 0 |}.

Definition set_success_count (n : Z) (cb : t) : t :=
  {| name := name cb;
     failure_threshold := failure_threshold cb;
     timeout_seconds := timeout_seconds cb;
     failure_count := failure_count cb;
     last_failure_time := last_failure_time cb;
     state := state cb;
     success_count := n |}.

Definition set_failure_count (n : Z) (cb : t) : t :=
  {| name := name cb;
     failure_threshold := failure_threshold cb;
     timeout_seconds := timeout_seconds cb;
     failure_count := n;
     last_failure_time := last_failure_time cb;
     state := state cb;
     success_count := success_count cb |}.

Definition set_last_failure_time (x : option Z) (cb : t) : t :=
  {| name := name cb;
     failure_threshold := failure_threshold cb;
     timeout_seconds := timeout_seconds cb;
     failure_count := failure_count cb;
     last_failure_time := x;
     state := state cb;
     success_count := success_count cb |}.

Definition record_success (cb : t) : t :=
  match state cb with
  | HALF_OPEN =>
      let cb := set_success_count (success_count cb + 1) cb in
      if bool_decide (2 ≤ success_count cb) then _close_circuit cb else cb
  | CLOSED => set_failure_count 0 cb
  | OPEN => cb
  end.

(** [now] is the value of [time.time()] read on line 51. *)
Definition record_failure (now : Z) (cb : t) : t :=
  let cb := set_failure_count (failure_count cb + 1) cb in
  let cb := set_last_failure_time (Some now) cb in
  match state cb with
  | HALF_OPEN => _open_circuit cb
  | _ =>
      if bool_decide (failure_threshold cb ≤ failure_count cb)
      then _open_circuit cb
      else cb
  end.

(** [self.last_failure_time and (time.time() - self.last_failure_time) >=
    self.timeout_seconds], with [now] the value of [time.time()] on line 70.
    [None] and [0.0] are falsy, and then the clock is not read. *)
Definition timeout_passed (now : Z) (cb : t) : bool :=
  match last_failure_time cb with
  | Some last => bool_decide (last ≠ 0) && bool_decide (timeout_seconds cb ≤ now - last)
  | None => false
  end.

Definition can_execute (now : Z) (cb : t) : bool * t :=
  match state cb with
  | CLOSED => (true, cb)
  | OPEN =>
      if timeout_passed now cb
      then (true, _half_open_circuit cb)
      else (false, cb)
  | HALF_OPEN => (true, cb)
  end.

(** The three mutating entry points, as one call alphabet. *)
Inductive call :=
  | CanExecute (now : Z)
  | RecordSuccess
  | RecordFailure (now : Z).

Definition step (cb : t) (c : call) : t :=
  match c with
  | CanExecute now => snd (can_execute now cb)
  | RecordSuccess => record_success cb
  | RecordFailure now => record_failure now cb
  end.

Definition run (cb : t) (cs : list call) : t := foldl step cb cs.

(** The value of [state] before the first call and after every call. *)
Fixpoint states (cb : t) (cs : list call) : list CircuitState :=
  match cs with
  | [] => [state cb]
  | c :: cs => state cb :: states (step cb c) cs
  end.

(** The changes of [state] along a list of successive values. *)
Fixpoint changes (l : list CircuitState) : list (CircuitState * CircuitState) :=
  match l with
  | a :: (b :: _) as tl =>
      if decide (a = b) then changes tl else (a, b) :: changes tl
  | _ => []
  end.

Definition edge (a b : CircuitState) : Prop :=
  (a = CLOSED ∧ b = OPEN) ∨ (a = OPEN ∧ b = HALF_OPEN) ∨
  (a = HALF_OPEN ∧ b = CLOSED) ∨ (a = HALF_OPEN ∧ b = OPEN).

Definition clock_of (c : call) : option Z :=
  match c with
  | CanExecute now | RecordFailure now => Some now
  | RecordSuccess => None
  end.

(** A breaker built by [__init__] and driven through its three methods
    under a clock whose readings are positive (seconds since the epoch). *)
Definition reachable (cb : t) : Prop :=
  ∃ env_threshold env_timeout threshold timeout nm cs,
    Forall (λ c, ∀ now, clock_of c = Some now → 0 < now) cs ∧
    cb = run (init env_threshold env_timeout threshold timeout nm) cs.

(** The reading of the specification: whatever half-open breaker the
    three methods have produced, one failure opens it, two consecutive
    successes close it with both counters at 0, and the first of the two
    leaves it half-open. *)
Definition first_success_stays_half_open : Prop :=
  ∀ cb now,
    reachable cb → state cb = HALF_OPEN →
    state (record_failure now cb) = OPEN ∧
    (let cb2 := record_success (record_success cb) in
     state cb2 = CLOSED ∧ failure_count cb2 = 0 ∧ success_count cb2 = 0) ∧
    state (record_success cb) = HALF_OPEN.

(** What [reachable] breakers satisfy: outside the closed state a failure
    time is recorded, and recorded failure times are positive. *)
Definition has_failure_time (cb : t) : Prop :=
  (state cb ≠ CLOSED → is_Some (last_failure_time cb)) ∧
  (∀ last, last_failure_time cb = Some last → 0 < last).

End CircuitBreaker.

(* ===================================================================== *)
(** ** services/rate_limiter.py *)
(* ===================================================================== *)

Module RateLimiter.

Record t := mk {
  max_requests_per_minute : Z;
  requests : gmap string (list Z)
}.

(** [__init__]; [env_max] is [int(os.getenv("MAX_REQUESTS_PER_MINUTE", "10"))]. *)
Definition init (env_max : Z) : t :=
  {| max_requests_per_minute := env_max; requests := ∅ |}.

Definition close (rl : t) : t :=
  {| max_requests_per_minute := max_requests_per_minute rl; requests := ∅ |}.

(** [self.requests[identifier]] on a [defaultdict(list)]: a missing key
    reads as the empty list. *)
Definition timestamps (rl : t) (identifier : string) : list Z :=
  default [] (requests rl !! identifier).

Definition set_timestamps (identifier : string) (l : list Z) (rl : t) : t :=
  {| max_requests_per_minute := max_requests_per_minute rl;
     requests := <[identifier := l]> (requests rl) |}.

(** [now] is the value of [time.time()] read on line 32. *)
Definition _clean_old_requests (now : Z) (rl : t) (identifier : string)
    (window_seconds : Z) : t :=
  let window_start := now - window_seconds in
  set_timestamps identifier
    (filter (λ ts, window_start < ts) (timestamps rl identifier)) rl.

(** [current_time] is the value of [time.time()] read on line 48, [now]
    the later value read inside [_clean_old_requests]. *)
Definition check_rate_limit (current_time now : Z) (rl : t)
    (identifier : string) (max_requests : option Z) (window_seconds : Z)
    : (bool * Z) * t :=
  let max_requests := py_or max_requests (max_requests_per_minute rl) in
  let rl := _clean_old_requests now rl identifier window_seconds in
  let request_count := Z.of_nat (length (timestamps rl identifier)) in
  if bool_decide (max_requests ≤ request_count) then ((false, 0), rl)
  else
    let rl := set_timestamps identifier
                (timestamps rl identifier ++ [current_time]) rl in
    let remaining := max_requests - request_count - 1 in
    ((true, remaining), rl).

Definition check_outbound_rate_limit (current_time now : Z) (rl : t)
    (service : string) : bool * t :=
  let '((is_allowed, _), rl) :=
    check_rate_limit current_time now rl ("outbound:" +:+ service) (Some 5) 1 in
  (is_allowed, rl).

(** Successive [check_rate_limit] calls with the same arguments; [clock]
    holds, per call, the two clock readings the call makes. *)
Fixpoint check_many (clock : list (Z * Z)) (rl : t) (identifier : string)
    (max_requests : option Z) (window_seconds : Z) : list (bool * Z) * t :=
  match clock with
  | [] => ([], rl)
  | (current_time, now) :: clock =>
      let '(r, rl) :=
        check_rate_limit current_time now rl identifier max_requests window_seconds in
      let '(rs, rl) := check_many clock rl identifier max_requests window_seconds in
      (r :: rs, rl)
  end.

(** All readings of a call sequence, in the order they are made. *)
Definition readings (clock : list (Z * Z)) : list Z :=
  flat_map (λ p, [p.1; p.2]) clock.

End RateLimiter.

(* ===================================================================== *)
(** ** Python strings and exceptions *)
(* ===================================================================== *)

Module Py.

(** Strings are sequences of 8-bit code points. *)
Definition nl : Ascii.ascii := Ascii.ascii_of_nat 10.

(** [str.isspace] on the code points below 256. *)
Definition isspace (c : Ascii.ascii) : bool :=
  let n := Ascii.nat_of_ascii c in
  ((9 <=? n) && (n <=? 13) || (28 <=? n) && (n <=? 32)
   || (n =? 133) || (n =? 160))%nat.

Fixpoint lstrip (s : string) : string :=
  match s with
  | String c s' => if isspace c then lstrip s' else s
  | EmptyString => EmptyString
  end.

Definition rstrip (s : string) : string := String.rev (lstrip (String.rev s)).

(** [s.strip()] *)
Definition strip (s : string) : string := rstrip (lstrip s).

(** [s.startswith(p)] *)
Definition startswith (p s : string) : bool := String.prefix p s.

(** [s.split("\n")] *)
Fixpoint split_nl (s : string) : list string :=
  match s with
  | EmptyString => [EmptyString]
  | String c s' =>
      if decide (c = nl) then EmptyString :: split_nl s'
      else match split_nl s' with
           | h :: t => String c h :: t
           | [] => [String c EmptyString]
           end
  end.

(** ["\n".join(lines)] *)
Definition join_nl (lines : list string) : string :=
  String.concat (String nl EmptyString) lines.

(** The exceptions of llm_service.py; [OtherException] stands for every
    other subclass of [Exception] (raised by the OpenAI client, by the
    store, or by the interpreter), with its type name and its [str()]. *)
Inductive exn :=
  | LLMServiceError (msg : string)
  | CircuitBreakerOpenError (msg : string)
  | RateLimitError (msg : string)
  | OtherException (type_name msg : string).

(** [isinstance(e, LLMServiceError)]: [CircuitBreakerOpenError] and
    [RateLimitError] are declared as subclasses of [LLMServiceError]. *)
Definition is_LLMServiceError (e : exn) : bool :=
  match e with
  | LLMServiceError _ | CircuitBreakerOpenError _ | RateLimitError _ => true
  | OtherException _ _ => false
  end.

(** [str(e)] *)
Definition str (e : exn) : string :=
  match e with
  | LLMServiceError msg | CircuitBreakerOpenError msg | RateLimitError msg => msg
  | OtherException _ msg => msg
  end.

Inductive result (A : Type) :=
  | Return (a : A)
  | Raise (e : exn).
Arguments Return {A} a.
Arguments Raise {A} e.

End Py.

(* ===================================================================== *)
(** ** The process state and its environment *)
(* ===================================================================== *)

Module Runtime.
Import Py.

(** A MongoDB document of the [generations] collection: field name to
    string or [None]. *)
Inductive value := VNull | VStr (s : string).

(** What the awaited [client.chat.completions.create] does: it raises, or
    it returns a response, of which the code reads only
    [choices[i].message.content] (a string or [None]). *)
Inductive api_result :=
  | ApiRaises (e : exn)
  | ApiReturns (choices : list (option string)).

(** What one attempt of [generate_ui_code] meets: the clock when the breaker
    is consulted, the behaviour of the API call, and the clock when the
    failure is recorded. *)
Record attempt_env := {
  t_check : Z;
  api : api_result;
  t_fail : Z
}.

(** What one [update_one] of [process_generation] meets: whether the
    awaited call raises; when it raises, whether the store has applied the
    update all the same (the write reaches the store and its
    acknowledgement is lost, as with a network timeout); and the value of
    [datetime.now(timezone.utc).isoformat()]. *)
Record write_env := {
  raises : option exn;
  applied_before_raising : bool;
  iso_now : string
}.

Record Env := {
  attempts : nat → attempt_env;    (* indexed by the attempts made so far *)
  running_write : write_env;       (* server.py line 115 *)
  success_write : write_env;       (* server.py line 124 *)
  failed_write : write_env         (* server.py line 137 *)
}.

Record World := {
  llm_circuit_breaker : CircuitBreaker.t;
  generations_collection : list (gmap string value);
  attempts_made : nat;             (* entries into the body of generate_ui_code *)
  api_calls : nat;                 (* awaited calls of the OpenAI client *)
  sleeps : list Z;                 (* backoff waits of the retry policy *)
  writes : list (string * list (string * value))   (* updates the store applied *)
}.

Definition set_breaker (cb : CircuitBreaker.t) (w : World) : World :=
  {| llm_circuit_breaker := cb;
     generations_collection := generations_collection w;
     attempts_made := attempts_made w;
     api_calls := api_calls w;
     sleeps := sleeps w;
     writes := writes w |}.

Definition set_collection (c : list (gmap string value)) (w : World) : World :=
  {| llm_circuit_breaker := llm_circuit_breaker w;
     generations_collection := c;
     attempts_made := attempts_made w;
     api_calls := api_calls w;
     sleeps := sleeps w;
     writes := writes w |}.

Definition set_attempts_made (n : nat) (w : World) : World :=
  {| llm_circuit_breaker := llm_circuit_breaker w;
     generations_collection := generations_collection w;
     attempts_made := n;
     api_calls := api_calls w;
     sleeps := sleeps w;
     writes := writes w |}.

Definition set_api_calls (n : nat) (w : World) : World :=
  {| llm_circuit_breaker := llm_circuit_breaker w;
     generations_collection := generations_collection w;
     attempts_made := attempts_made w;
     api_calls := n;
     sleeps := sleeps w;
     writes := writes w |}.

Definition set_sleeps (l : list Z) (w : World) : World :=
  {| llm_circuit_breaker := llm_circuit_breaker w;
     generations_collection := generations_collection w;
     attempts_made := attempts_made w;
     api_calls := api_calls w;
     sleeps := l;
     writes := writes w |}.

Definition set_writes (l : list (string * list (string * value))) (w : World) : World :=
  {| llm_circuit_breaker := llm_circuit_breaker w;
     generations_collection := generations_collection w;
     attempts_made := attempts_made w;
     api_calls := api_calls w;
     sleeps := sleeps w;
     writes := l |}.

(** Computations that read the environment, change the world, and return
    or raise. *)
Definition M (A : Type) : Type := Env → World → result A * World.

Definition ret {A} (a : A) : M A := λ _ w, (Return a, w).

Definition raise {A} (e : exn) : M A := λ _ w, (Raise e, w).

Definition bind {A B} (m : M A) (k : A → M B) : M B :=
  λ env w,
    match m env w with
    | (Return a, w') => k a env w'
    | (Raise e, w') => (Raise e, w')
    end.

(** [try: body  except Exception as e: handler(e)] *)
Definition try_except {A} (body : M A) (handler : exn → M A) : M A :=
  λ env w,
    match body env w with
    | (Return a, w') => (Return a, w')
    | (Raise e, w') => handler e env w'
    end.

Definition ask : M Env := λ env w, (Return env, w).
Definition modify (f : World → World) : M unit := λ _ w, (Return tt, f w).

End Runtime.

Declare Scope py_scope.
Delimit Scope py_scope with py.
Notation "'let!' x ':=' m 'in' k" := (Runtime.bind m (λ x, k))
  (at level 10, x name, m at level 100, k at level 200) : py_scope.
Notation "'do!' m 'in' k" := (Runtime.bind m (λ _, k))
  (at level 10, m at level 100, k at level 200) : py_scope.

(* ===================================================================== *)
(** ** services/llm_service.py *)
(* ===================================================================== *)

Module LLMService.
Import Py Runtime.
#[local] Open Scope py_scope.

Record t := mk {
  api_key : option string;
  model : string
}.

(** [__init__]; [env_api_key] is [os.getenv("OPENAI_API_KEY")]. *)
Definition init (env_api_key : option string) : t :=
  {| api_key := env_api_key; model := "gpt-4o" |}.

(** [self.client] is an [AsyncOpenAI] when [self.api_key] is truthy (set
    and not empty) and [None] otherwise. *)
Definition has_client (self : t) : bool :=
  match api_key self with
  | Some k => negb (String.eqb k "")
  | None => false
  end.

(** The dictionary returned by [generate_ui_code]. *)
Record generated := {
  code : string;
  explanation : string
}.

Definition breaker_open_message : string :=
  "LLM service is temporarily unavailable. Please try again later.".

(** The methods of the global [llm_circuit_breaker]. *)
Definition can_execute (now : Z) : M bool :=
  λ _ w,
    let '(ok, cb) := CircuitBreaker.can_execute now (llm_circuit_breaker w) in
    (Return ok, set_breaker cb w).

Definition record_success : M unit :=
  modify (λ w, set_breaker (CircuitBreaker.record_success (llm_circuit_breaker w)) w).

Definition record_failure (now : Z) : M unit :=
  modify (λ w, set_breaker (CircuitBreaker.record_failure now (llm_circuit_breaker w)) w).

(** Entry into the function body: one more attempt is under way, and the
    environment says what it will meet. *)
Definition enter : M attempt_env :=
  λ env w, (Return (attempts env (attempts_made w)),
            set_attempts_made (S (attempts_made w)) w).

(** [await self.client.chat.completions.create(...)] *)
Definition create (a : attempt_env) : M (list (option string)) :=
  do! modify (λ w, set_api_calls (S (api_calls w)) w) in
  match api a with
  | ApiRaises e => raise e
  | ApiReturns choices => ret choices
  end.

(** [response.choices[0].message.content.strip()] *)
Definition first_content_stripped (choices : list (option string)) : M string :=
  match choices with
  | [] => raise (OtherException "IndexError" "list index out of range")
  | None :: _ =>
      raise (OtherException "AttributeError"
               "'NoneType' object has no attribute 'strip'")
  | Some content :: _ => ret (strip content)
  end.

(** Lines 98-103: removal of a surrounding markdown code fence. *)
Definition unfence (code : string) : string :=
  if startswith "```" code then
    let lines := split_nl code in
    let lines := tail lines in
    let lines :=
      match last lines with
      | Some l => if String.eqb (strip l) "```" then removelast lines else lines
      | None => lines
      end in
    join_nl lines
  else code.

(** The body of [generate_ui_code], one attempt. *)
Definition generate_ui_code_body (self : t) (prompt request_id : string)
    : M generated :=
  let! a := enter in
  let! ok := can_execute (t_check a) in
  if negb ok then raise (CircuitBreakerOpenError breaker_open_message)
  else
    try_except
      (if negb (has_client self)
       then raise (LLMServiceError "OpenAI API key not configured")
       else
         let! choices := create a in
         do! record_success in
         let! code := first_content_stripped choices in
         let code := unfence code in
         ret {| code := strip code;
                explanation := "Generated React component based on: " +:+ prompt |})
      (λ e,
         do! record_failure (t_fail a) in
         raise (LLMServiceError ("Failed to generate UI code: " +:+ str e))).

(** *** The [@retry] decorator (tenacity)

    tenacity is a third-party library; these definitions follow its
    documented behaviour.  After an attempt that returns, the value is
    returned.  After an attempt that raises, the [retry] predicate is asked:
    if it does not hold, the exception propagates; if it holds and the [stop]
    condition is reached, the last exception is raised again
    ([reraise=True]); otherwise the policy sleeps for [wait] seconds and
    calls the function again. *)

(** [wait_exponential(multiplier, min, max)] after attempt [attempt_number] *)
Definition wait_exponential (multiplier min max : Z) (attempt_number : Z) : Z :=
  Z.max (Z.max 0 min) (Z.min (multiplier * 2 ^ (attempt_number - 1)) max).

Definition sleep (seconds : Z) : M unit :=
  modify (λ w, set_sleeps (sleeps w ++ [seconds]) w).

(** [remaining] attempts may still follow attempt number [attempt_number]. *)
Fixpoint retry_from {A} (remaining : nat) (attempt_number : Z) (fn : M A) : M A :=
  match remaining with
  | O => fn
  | S remaining =>
      try_except fn
        (λ e,
           if is_LLMServiceError e            (* retry_if_exception_type *)
           then
             do! sleep (wait_exponential 1 1 10 attempt_number) in
             retry_from remaining (attempt_number + 1) fn
           else raise e)
  end.

(** [@retry(stop=stop_after_attempt(n), wait=wait_exponential(multiplier=1,
    min=1, max=10), retry=retry_if_exception_type(LLMServiceError),
    reraise=True)] *)
Definition retry {A} (stop_after_attempt : nat) (fn : M A) : M A :=
  retry_from (stop_after_attempt - 1) 1 fn.

Definition generate_ui_code (self : t) (prompt request_id : string) : M generated :=
  retry 3 (generate_ui_code_body self prompt request_id).

(** Whether the breaker of [w] admits the attempt that is made next. *)
Definition admits_next (env : Env) (w : World) : bool :=
  (CircuitBreaker.can_execute (t_check (attempts env (attempts_made w)))
     (llm_circuit_breaker w)).1.

(** The reading of the specification for a call whose first attempt is
    rejected by the breaker: the call fails with the breaker-open error
    after that one attempt, without a call of the API and without a backoff
    wait. *)
Definition breaker_open_never_retried : Prop :=
  ∀ self prompt request_id env w,
    admits_next env w = false →
    ∃ msg w',
      generate_ui_code self prompt request_id env w
        = (Raise (CircuitBreakerOpenError msg), w') ∧
      attempts_made w' = S (attempts_made w) ∧
      api_calls w' = api_calls w ∧
      sleeps w' = sleeps w.

(** The reading of the specification for a call made without an API key:
    the call fails after one attempt, and no failure is recorded in the
    breaker. *)
Definition missing_key_never_retried : Prop :=
  ∀ self prompt request_id env w,
    has_client self = false →
    admits_next env w = true →
    ∃ e w',
      generate_ui_code self prompt request_id env w = (Raise e, w') ∧
      attempts_made w' = S (attempts_made w) ∧
      CircuitBreaker.failure_count (llm_circuit_breaker w')
        = CircuitBreaker.failure_count (llm_circuit_breaker w).

End LLMService.

(* ===================================================================== *)
(** ** server.py: the background task *)
(* ===================================================================== *)

Module Server.
Import Py Runtime.
#[local] Open Scope py_scope.

#[global] Instance value_eq_dec : EqDecision value.
Proof. solve_decision. Defined.

(** The filter [{"job_id": job_id}]. *)
Definition matches (job_id : string) (d : gmap string value) : bool :=
  bool_decide (d !! "job_id" = Some (VStr job_id)).

(** [{"$set": fields}] on one document *)
Definition set_fields (fields : list (string * value)) (d : gmap string value)
    : gmap string value :=
  foldl (λ d kv, <[kv.1 := kv.2]> d) d fields.

(** The effect of [update_one] on the collection: the first document that
    matches is updated; without a match nothing changes. *)
Fixpoint apply_update (job_id : string) (fields : list (string * value))
    (c : list (gmap string value)) : list (gmap string value) :=
  match c with
  | [] => []
  | d :: c =>
      if matches job_id d then set_fields fields d :: c
      else d :: apply_update job_id fields c
  end.

(** [find_one({"job_id": job_id})] *)
Fixpoint find_one (job_id : string) (c : list (gmap string value))
    : option (gmap string value) :=
  match c with
  | [] => None
  | d :: c => if matches job_id d then Some d else find_one job_id c
  end.

(** [d.get(k)] *)
Definition get_field (d : gmap string value) (k : string) : value :=
  default VNull (d !! k).

(** The store applies [{"$set": fields}] to the record of [job_id]. *)
Definition store_applies (job_id : string) (fields : list (string * value))
    : M unit :=
  modify (λ w,
    set_writes (writes w ++ [(job_id, fields)])
      (set_collection (apply_update job_id fields (generations_collection w)) w)).

(** [await generations_collection.update_one({"job_id": job_id},
    {"$set": fields})]: the store applies the update and the call returns;
    or the call raises, the store having applied nothing; or the call
    raises although the store has applied the update. *)
Definition update_one (e : write_env) (job_id : string)
    (fields : list (string * value)) : M unit :=
  match raises e with
  | None => store_applies job_id fields
  | Some ex =>
      if applied_before_raising e
      then do! store_applies job_id fields in raise ex
      else raise ex
  end.

(** The store applied the update and the call raised all the same. *)
Definition applied_then_raised (e : write_env) : Prop :=
  is_Some (raises e) ∧ applied_before_raising e = true.

(** The record that [generate_ui] inserts before it schedules the task. *)
Definition generation_doc (job_id prompt created_at updated_at : string)
    : gmap string value :=
  list_to_map
    [("job_id", VStr job_id); ("prompt", VStr prompt); ("status", VStr "pending");
     ("generated_code", VNull); ("explanation", VNull); ("error_message", VNull);
     ("user_id", VStr "default_user"); ("created_at", VStr created_at);
     ("updated_at", VStr updated_at)].

Definition process_generation (llm_service : LLMService.t)
    (job_id prompt : string) : M unit :=
  let! env := ask in
  try_except
    (do! update_one (running_write env) job_id
           [("status", VStr "running");
            ("updated_at", VStr (iso_now (running_write env)))] in
     let! result := LLMService.generate_ui_code llm_service prompt job_id in
     update_one (success_write env) job_id
       [("status", VStr "success");
        ("generated_code", VStr (LLMService.code result));
        ("explanation", VStr (LLMService.explanation result));
        ("updated_at", VStr (iso_now (success_write env)))])
    (λ e,
       update_one (failed_write env) job_id
         [("status", VStr "failed");
          ("error_message", VStr (str e));
          ("updated_at", VStr (iso_now (failed_write env)))]).

(** The status a write sets, if any. *)
Definition status_of (u : string * list (string * value)) : option value :=
  (list_to_map u.2 : gmap string value) !! "status".

(** A terminal write sets the status to success or to failed. *)
Definition is_terminal (u : string * list (string * value)) : bool :=
  bool_decide (status_of u = Some (VStr "success"))
  || bool_decide (status_of u = Some (VStr "failed")).

Definition terminal_writes (l : list (string * list (string * value)))
    : list (string * list (string * value)) :=
  List.filter is_terminal l.

(** A success write: code and explanation are strings, the error message is
    not touched. *)
Definition success_shape (job_id : string) (u : string * list (string * value)) : Prop :=
  ∃ code explanation updated_at,
    u = (job_id, [("status", VStr "success"); ("generated_code", VStr code);
                  ("explanation", VStr explanation); ("updated_at", VStr updated_at)]).

(** A failed write: the error message is a string, the generated code is
    not touched. *)
Definition failed_shape (job_id : string) (u : string * list (string * value)) : Prop :=
  ∃ message updated_at,
    u = (job_id, [("status", VStr "failed"); ("error_message", VStr message);
                  ("updated_at", VStr updated_at)]).

(** The job record as the status endpoint shows it. *)
Definition success_record (d : gmap string value) : Prop :=
  get_field d "status" = VStr "success" ∧
  (∃ code, get_field d "generated_code" = VStr code) ∧
  (∃ explanation, get_field d "explanation" = VStr explanation) ∧
  get_field d "error_message" = VNull.

Definition failed_record (d : gmap string value) : Prop :=
  get_field d "status" = VStr "failed" ∧
  (∃ message, get_field d "error_message" = VStr message) ∧
  get_field d "generated_code" = VNull.

(** The reading of the specification: every execution of the task returns
    normally and makes exactly one terminal write. *)
Definition always_one_terminal_write : Prop :=
  ∀ llm_service job_id prompt env w,
    ∃ u w',
      process_generation llm_service job_id prompt env w = (Return tt, w') ∧
      terminal_writes (writes w') = terminal_writes (writes w) ++ [u] ∧
      (success_shape job_id u ∨ failed_shape job_id u).

End Server.

(* ===================================================================== *)
(** ** server.py: the endpoints and the rate-limit middleware *)
(* ===================================================================== *)

Module Api.
Import Py Runtime Server.
#[local] Open Scope py_scope.

Module GenerateResponse.
Record t := mk {
  job_id : string;
  status : string;
  message : string
}.
End GenerateResponse.

Module JobStatusResponse.
Record t := mk {
  job_id : string;
  status : string;
  generated_code : option string;
  explanation : option string;
  error_message : option string;
  prompt : option string;
  created_at : string
}.
End JobStatusResponse.

(** [await generations_collection.insert_one(doc)]: the store raises and
    inserts nothing, or adds the document after the ones it holds.  The
    ["_id"] that the store adds is left out: every read of the collection
    projects it away. *)
Definition insert_one (insert_raises : option exn) (doc : gmap string value)
    : M unit :=
  match insert_raises with
  | Some ex => raise ex
  | None => modify (λ w, set_collection (generations_collection w ++ [doc]) w)
  end.

(** [generate_ui]: [job_id] is [str(uuid.uuid4())], [created_at] and
    [updated_at] the two values of [datetime.now(timezone.utc).isoformat()].
    Besides the response, the result holds the arguments of the
    [process_generation] call that [background_tasks.add_task] schedules. *)
Definition generate_ui (job_id created_at updated_at : string)
    (insert_raises : option exn) (prompt : string)
    : M (GenerateResponse.t * (string * string)) :=
  do! insert_one insert_raises (generation_doc job_id prompt created_at updated_at) in
  ret (GenerateResponse.mk job_id "pending" "Generation job started",
       (job_id, prompt)).

(** How [get_job_status] fails: the store raises in [find_one]; the job is
    unknown ([HTTPException]); a key read with [generation[...]] is absent
    ([KeyError]); a required string of [JobStatusResponse] is [None]
    (pydantic's [ValidationError]). *)
Inductive status_error :=
  | StoreError (e : exn)
  | HTTPException (status_code : Z) (detail : string)
  | KeyError (key : string)
  | ValidationError.

(** [generation.get(k)] as an optional string *)
Definition get_optional (d : gmap string value) (k : string) : option string :=
  match get_field d k with
  | VStr s => Some s
  | VNull => None
  end.

(** [get_job_status]: the keyword arguments are evaluated in order, so the
    two subscripts raise before the model is validated. *)
Definition get_job_status (find_raises : option exn) (job_id : string)
    (w : World) : status_error + JobStatusResponse.t :=
  match find_raises with
  | Some ex => inl (StoreError ex)
  | None =>
      match find_one job_id (generations_collection w) with
      | None => inl (HTTPException 404 "Job not found")
      | Some generation =>
          match generation !! "status", generation !! "created_at" with
          | None, _ => inl (KeyError "status")
          | Some _, None => inl (KeyError "created_at")
          | Some (VStr status), Some (VStr created_at) =>
              inr (JobStatusResponse.mk job_id status
                     (get_optional generation "generated_code")
                     (get_optional generation "explanation")
                     (get_optional generation "error_message")
                     (get_optional generation "prompt")
                     created_at)
          | Some _, Some _ => inl ValidationError
          end
      end
  end.

(** The fields that the updates of [process_generation] set. *)
Definition result_keys : list string :=
  ["status"; "generated_code"; "explanation"; "error_message"; "updated_at"].

(** What the middleware reads of a request: [request.url.path] and
    [request.client.host], when there is a [request.client]. *)
Record Request := {
  path : string;
  client_host : option string
}.

(** The content of the 429 response. *)
Inductive json := JStr (s : string) | JInt (n : Z).

Section Middleware.
(** The framework's side, left open: the responses, the rest of the
    application behind [call_next] with its own state, the constructor
    [JSONResponse(status_code, content, headers)] and the assignment
    [response.headers[name] = value]. *)
Context {Response AppState : Type}.
Variable call_next : Request → AppState → Response * AppState.
Variable JSONResponse : Z → list (string * json) → list (string * string) → Response.
Variable set_header : string → string → Response → Response.

(** [current_time] and [now] are the two clock readings of
    [check_rate_limit]. *)
Definition rate_limit_middleware (current_time now : Z) (request : Request)
    (rate_limiter : RateLimiter.t) (app : AppState)
    : Response * RateLimiter.t * AppState :=
  if String.eqb (path request) "/api/health" then
    let '(response, app) := call_next request app in
    (response, rate_limiter, app)
  else
    let client_ip := default "unknown" (client_host request) in
    let '((is_allowed, remaining), rate_limiter) :=
      RateLimiter.check_rate_limit current_time now rate_limiter client_ip
        None 60 in
    if negb is_allowed then
      (JSONResponse 429
         [("error", JStr "Rate limit exceeded");
          ("message", JStr "Too many requests. Please try again in a minute.");
          ("retry_after", JInt 60)]
         [("Retry-After", "60")],
       rate_limiter, app)
    else
      let '(response, app) := call_next request app in
      (set_header "X-RateLimit-Remaining" (pretty remaining) response,
       rate_limiter, app).

(** Successive requests through the middleware, each with the clock
    readings it meets. *)
Fixpoint serve (requests : list (Z * Z * Request))
    (rate_limiter : RateLimiter.t) (app : AppState)
    : list Response * RateLimiter.t * AppState :=
  match requests with
  | [] => ([], rate_limiter, app)
  | (current_time, now, request) :: requests =>
      let '(response, rate_limiter, app) :=
        rate_limit_middleware current_time now request rate_limiter app in
      let '(responses, rate_limiter, app) := serve requests rate_limiter app in
      (response :: responses, rate_limiter, app)
  end.

(** The same requests handed to the application directly. *)
Fixpoint handle_all (requests : list Request) (app : AppState)
    : list Response * AppState :=
  match requests with
  | [] => ([], app)
  | request :: requests =>
      let '(response, app) := call_next request app in
      let '(responses, app) := handle_all requests app in
      (response :: responses, app)
  end.
End Middleware.

(** A stand-in application for concrete runs: responses are a status code
    and a list of headers, the application counts the requests it sees. *)
Definition counting_app (request : Request) (seen : nat)
    : (Z * list (string * string)) * nat :=
  ((200, []), S seen).

Definition plain_json (status_code : Z) (content : list (string * json))
    (headers : list (string * string)) : Z * list (string * string) :=
  (status_code, headers).

Definition add_header (name value : string) (response : Z * list (string * string))
    : Z * list (string * string) :=
  (response.1, response.2 ++ [(name, value)]).

End Api.

(* ===================================================================== *)
(** ** Concrete runs *)
(* ===================================================================== *)

Module Scenario.
Import Py Runtime.

(** The clock reads 2000, 2001, ... when successive attempts consult the
    breaker; the API would answer every call with a fenced component; the
    store accepts every update. *)
Definition answering : Env :=
  {| attempts := λ n,
       {| t_check := 2000 + Z.of_nat n;
          api := ApiReturns [Some (join_nl ["```jsx"; "<button/>"; "```"])];
          t_fail := 2000 + Z.of_nat n |};
     running_write := {| raises := None; applied_before_raising := false;
                         iso_now := "2026-01-01T00:00:00+00:00" |};
     success_write := {| raises := None; applied_before_raising := false;
                         iso_now := "2026-01-01T00:00:01+00:00" |};
     failed_write := {| raises := None; applied_before_raising := false;
                        iso_now := "2026-01-01T00:00:01+00:00" |} |}.

(** The same, with a store that is down: every update raises and none is
    applied. *)
Definition store_down : Env :=
  let down :=
    {| raises := Some (OtherException "ServerSelectionTimeoutError"
                         "localhost:27017: connection refused");
       applied_before_raising := false;
       iso_now := "2026-01-01T00:00:00+00:00" |} in
  {| attempts := attempts answering;
     running_write := down;
     success_write := down;
     failed_write := down |}.

(** The same as [answering], but the acknowledgement of the success update
    is lost: the store applies it and the awaited call raises. *)
Definition acknowledgement_lost : Env :=
  {| attempts := attempts answering;
     running_write := running_write answering;
     success_write :=
       {| raises := Some (OtherException "NetworkTimeout"
                            "localhost:27017: timed out");
          applied_before_raising := true;
          iso_now := "2026-01-01T00:00:01+00:00" |};
     failed_write :=
       {| raises := None; applied_before_raising := false;
          iso_now := "2026-01-01T00:00:02+00:00" |} |}.

(** The global breaker as constructed (threshold 5, timeout 60). *)
Definition fresh_breaker : CircuitBreaker.t :=
  CircuitBreaker.init 5 60 None None "llm_service".

(** The global breaker after five failures, the last at 1999. *)
Definition tripped_breaker : CircuitBreaker.t :=
  CircuitBreaker.run fresh_breaker
    (CircuitBreaker.RecordFailure <$> [1995; 1996; 1997; 1998; 1999]).

(** The process right after [generate_ui] has inserted the pending record
    of job ["job-1"]. *)
Definition submitted (cb : CircuitBreaker.t) : World :=
  {| llm_circuit_breaker := cb;
     generations_collection :=
       [Server.generation_doc "job-1" "a button"
          "2026-01-01T00:00:00+00:00" "2026-01-01T00:00:00+00:00"];
     attempts_made := 0;
     api_calls := 0;
     sleeps := [];
     writes := [] |}.

Definition with_key : LLMService.t := LLMService.init (Some "sk-test").
Definition without_key : LLMService.t := LLMService.init None.

End Scenario.

(* ===================================================================== *)
(** * Properties of the circuit breaker *)
(* ===================================================================== *)

Module CircuitBreakerSpec.
Import CircuitBreaker.

Ltac unfold_breaker :=
  unfold can_execute, timeout_passed, record_success, record_failure,
    _open_circuit, _close_circuit, _half_open_circuit,
    set_success_count, set_failure_count, set_last_failure_time in *;
  simpl in *.

Lemma run_app cb cs1 cs2 : run cb (cs1 ++ cs2) = run (run cb cs1) cs2.
Proof. apply foldl_app. Qed.

Lemma states_snoc cb cs c :
  states cb (cs ++ [c]) = states cb cs ++ [state (run cb (cs ++ [c]))].
Proof.
  revert cb. induction cs as [|c' cs IH]; intros cb; simpl.
  - reflexivity.
  - by rewrite IH.
Qed.

Lemma changes_closed_then_open n :
  changes (replicate (S n) CLOSED ++ [OPEN]) = [(CLOSED, OPEN)].
Proof.
  induction n as [|n IH].
  - reflexivity.
  - change (replicate (S (S n)) CLOSED ++ [OPEN])
      with (CLOSED :: (replicate (S n) CLOSED ++ [OPEN])).
    simpl in *. exact IH.
Qed.

(** Below the threshold a closed breaker only counts. *)
Lemma failures_below_threshold times cb :
  state cb = CLOSED →
  failure_count cb + Z.of_nat (length times) < failure_threshold cb →
  let cb' := run cb (RecordFailure <$> times) in
  state cb' = CLOSED ∧
  failure_count cb' = failure_count cb + Z.of_nat (length times) ∧
  failure_threshold cb' = failure_threshold cb ∧
  timeout_seconds cb' = timeout_seconds cb ∧
  states cb (RecordFailure <$> times) = replicate (S (length times)) CLOSED.
Proof.
  revert cb. induction times as [|t times IH]; intros cb Hst Hlt cb'.
  - subst cb'. simpl in *. rewrite Hst. repeat split; lia.
  - assert (Hstep : state (record_failure t cb) = CLOSED
                    ∧ failure_count (record_failure t cb) = failure_count cb + 1
                    ∧ failure_threshold (record_failure t cb) = failure_threshold cb
                    ∧ timeout_seconds (record_failure t cb) = timeout_seconds cb).
    { simpl in Hlt. unfold_breaker. rewrite Hst.
      rewrite bool_decide_eq_false_2 by lia. simpl. auto. }
    destruct Hstep as (Hs & Hc & Hth & Hto).
    simpl length in Hlt.
    destruct (IH (record_failure t cb)) as (H1 & H2 & H3 & H4 & H5);
      [done | lia |].
    subst cb'. rewrite fmap_cons.
    change (run cb (RecordFailure t :: (RecordFailure <$> times)))
      with (run (record_failure t cb) (RecordFailure <$> times)).
    change (states cb (RecordFailure t :: (RecordFailure <$> times)))
      with (state cb :: states (record_failure t cb) (RecordFailure <$> times)).
    rewrite H1, H2, H3, H4, H5, Hst, Hc, Hth, Hto. simpl length.
    repeat split; try done; lia.
Qed.

(** The failure that reaches the threshold opens a closed breaker. *)
Lemma failure_at_threshold t cb :
  state cb = CLOSED →
  failure_count cb + 1 = failure_threshold cb →
  record_failure t cb
  = mk (name cb) (failure_threshold cb) (timeout_seconds cb)
       (failure_threshold cb) (Some t) OPEN 0.
Proof.
  intros Hst Hc. unfold_breaker. rewrite Hst.
  rewrite bool_decide_eq_true_2 by lia. simpl. by rewrite Hc.
Qed.

(** C4: on a closed breaker with no failure counted, [failure_threshold]
    consecutive [record_failure] calls leave the breaker closed until the
    last of them, which opens it; the state changes exactly once along the
    sequence, from closed to open; and [can_execute], called before
    [timeout_seconds] have elapsed since the last failure, returns false
    and leaves the breaker as it is. *)
Theorem threshold_failures_open_once (cb : t) (times : list Z) (now : Z) :
  state cb = CLOSED →
  failure_count cb = 0 →
  1 ≤ failure_threshold cb →
  Z.of_nat (length times) = failure_threshold cb →
  0 < timeout_seconds cb →
  (∀ t, last times = Some t → now - t < timeout_seconds cb) →
  let calls := RecordFailure <$> times in
  (∀ k, (k < length times)%nat → state (run cb (take k calls)) = CLOSED) ∧
  state (run cb calls) = OPEN ∧
  changes (states cb calls) = [(CLOSED, OPEN)] ∧
  can_execute now (run cb calls) = (false, run cb calls).
Proof.
  intros Hst Hc Hth Hlen Hto Hnow calls. subst calls.
  destruct (decide (times = [])) as [->|Hne]; [simpl in *; lia|].
  destruct (exists_last Hne) as (times' & t & ->).
  rewrite length_app in Hlen. simpl in Hlen.
  specialize (Hnow t). rewrite last_snoc in Hnow. specialize (Hnow eq_refl).
  destruct (failures_below_threshold times' cb Hst ltac:(lia))
    as (H1 & H2 & H3 & H4 & H5).
  assert (Hsplit : RecordFailure <$> (times' ++ [t])
            = (RecordFailure <$> times') ++ [RecordFailure t])
    by (rewrite fmap_app; reflexivity).
  assert (Hfinal : run cb (RecordFailure <$> (times' ++ [t]))
            = mk (name (run cb (RecordFailure <$> times')))
                 (failure_threshold cb) (timeout_seconds cb)
                 (failure_threshold cb) (Some t) OPEN 0).
  { rewrite Hsplit, run_app. simpl.
    rewrite failure_at_threshold by (done || lia).
    by rewrite H3, H4. }
  split; [|split; [|split]].
  - intros k Hk. rewrite length_app in Hk. simpl in Hk.
    rewrite <- fmap_take, take_app_le by lia.
    apply (failures_below_threshold (take k times') cb Hst).
    rewrite length_take. lia.
  - by rewrite Hfinal.
  - rewrite Hsplit, states_snoc, <- Hsplit, H5, Hfinal. simpl state.
    apply changes_closed_then_open.
  - rewrite Hfinal. unfold can_execute, timeout_passed. simpl.
    rewrite (bool_decide_eq_false_2 (timeout_seconds cb ≤ now - t)) by lia.
    by rewrite andb_false_r.
Qed.

Lemma threshold_failures_open_once_witness :
  let cb := init 5 60 (Some 2) (Some 1) "llm_service" in
  let calls := RecordFailure <$> [1000; 1001] in
  (∀ k, (k < 2)%nat → state (run cb (take k calls)) = CLOSED) ∧
  state (run cb calls) = OPEN ∧
  changes (states cb calls) = [(CLOSED, OPEN)] ∧
  can_execute 1001 (run cb calls) = (false, run cb calls).
Proof.
  apply (threshold_failures_open_once
           (init 5 60 (Some 2) (Some 1) "llm_service") [1000; 1001] 1001).
  - reflexivity.
  - reflexivity.
  - simpl. lia.
  - reflexivity.
  - simpl. lia.
  - simpl. intros t [= <-]. lia.
Defined.

Lemma has_failure_time_init env_threshold env_timeout threshold timeout nm :
  has_failure_time (init env_threshold env_timeout threshold timeout nm).
Proof. split; simpl; [congruence | discriminate]. Qed.

Lemma has_failure_time_step cb c :
  (∀ now, clock_of c = Some now → 0 < now) →
  has_failure_time cb → has_failure_time (step cb c).
Proof.
  intros Hpos [Hsome Hlast].
  destruct cb as [nm th to fc lft st sc].
  unfold has_failure_time in *. simpl in *.
  assert (Hc : ∀ now, c = RecordFailure now → 0 < now)
    by (intros now ->; apply Hpos; reflexivity).
  destruct c as [now| |now]; simpl;
    unfold can_execute, record_success, record_failure; simpl;
    destruct st; simpl;
    repeat match goal with
           | |- context [if ?b then _ else _] => destruct b; simpl
           end;
    (split;
     [ first [ congruence | intros _; apply Hsome; congruence | eauto ]
     | first [ exact Hlast | intros ? [= <-]; by apply Hc ] ]).
Qed.

Lemma has_failure_time_run cs cb :
  Forall (λ c, ∀ now, clock_of c = Some now → 0 < now) cs →
  has_failure_time cb → has_failure_time (run cb cs).
Proof.
  revert cb. induction cs as [|c cs IH]; intros cb Hcs Hcb; [done|].
  inversion Hcs; subst. apply IH; [done|].
  by apply has_failure_time_step.
Qed.

Lemma reachable_has_failure_time cb : reachable cb → has_failure_time cb.
Proof.
  intros (et & eo & th & to & nm & cs & Hcs & ->).
  apply has_failure_time_run; [done|]. apply has_failure_time_init.
Qed.

(** C5: an open breaker, reached from construction under a clock of
    positive readings, has a recorded failure time; while fewer than
    [timeout_seconds] have elapsed since then, [can_execute] returns false
    and leaves the breaker open and unchanged; once [timeout_seconds] have
    elapsed, [can_execute] returns true and puts the breaker in the
    half-open state. *)
Theorem open_until_timeout (cb : t) :
  reachable cb →
  state cb = OPEN →
  ∃ last,
    last_failure_time cb = Some last ∧
    ∀ now,
      (now - last < timeout_seconds cb →
         can_execute now cb = (false, cb) ∧ state (can_execute now cb).2 = OPEN) ∧
      (timeout_seconds cb ≤ now - last →
         can_execute now cb = (true, _half_open_circuit cb) ∧
         state (can_execute now cb).2 = HALF_OPEN).
Proof.
  intros Hreach Hst.
  destruct (reachable_has_failure_time cb Hreach) as [Hsome Hpos].
  destruct Hsome as [last Hlast]; [congruence|].
  specialize (Hpos last Hlast).
  exists last. split; [done|]. intros now.
  unfold can_execute, timeout_passed. rewrite Hst, Hlast.
  rewrite (bool_decide_eq_true_2 (last ≠ 0)) by lia. simpl.
  split; intros H.
  - rewrite bool_decide_eq_false_2 by lia. done.
  - rewrite bool_decide_eq_true_2 by lia. done.
Qed.

Lemma open_until_timeout_witness :
  let cb := run (init 5 60 None None "llm_service")
                (RecordFailure <$> [1000; 1001; 1002; 1003; 1004]) in
  state cb = OPEN ∧
  ∃ last,
    last_failure_time cb = Some last ∧
    ∀ now,
      (now - last < timeout_seconds cb →
         can_execute now cb = (false, cb) ∧ state (can_execute now cb).2 = OPEN) ∧
      (timeout_seconds cb ≤ now - last →
         can_execute now cb = (true, _half_open_circuit cb) ∧
         state (can_execute now cb).2 = HALF_OPEN).
Proof.
  split; [reflexivity|].
  apply (open_until_timeout
           (run (init 5 60 None None "llm_service")
                (RecordFailure <$> [1000; 1001; 1002; 1003; 1004]))).
  - exists 5, 60, None, None, "llm_service",
      (RecordFailure <$> [1000; 1001; 1002; 1003; 1004]).
    split; [|reflexivity].
    repeat constructor; simpl; intros ? [= <-]; lia.
  - reflexivity.
Defined.

(** C6 (amended): in the half-open state, with a success count that is
    not negative, one [record_failure] opens the breaker; two consecutive
    [record_success] calls close it with [failure_count] and
    [success_count] at 0; the first of the two successes leaves it
    half-open, with one success counted, when no success has been counted
    since the breaker became half-open; and it closes the breaker at once,
    with both counters at 0, when a success has been counted already. *)
Theorem half_open_transitions (cb : t) (now : Z) :
  state cb = HALF_OPEN →
  0 ≤ success_count cb →
  state (record_failure now cb) = OPEN ∧
  (let cb2 := record_success (record_success cb) in
   state cb2 = CLOSED ∧ failure_count cb2 = 0 ∧ success_count cb2 = 0) ∧
  (success_count cb = 0 →
   state (record_success cb) = HALF_OPEN ∧
   success_count (record_success cb) = 1) ∧
  (1 ≤ success_count cb →
   let cb1 := record_success cb in
   state cb1 = CLOSED ∧ failure_count cb1 = 0 ∧ success_count cb1 = 0).
Proof.
  intros Hst Hsc. split; [|split; [|split]].
  - unfold record_failure. simpl. by rewrite Hst.
  - unfold record_success at 2. rewrite Hst. simpl.
    destruct (bool_decide (2 ≤ success_count cb + 1)) eqn:Hd; simpl.
    + done.
    + apply bool_decide_eq_false in Hd.
      unfold record_success. simpl. rewrite Hst. simpl.
      rewrite bool_decide_eq_true_2 by lia. done.
  - intros H0. unfold record_success. rewrite Hst. simpl. rewrite H0. simpl.
    done.
  - intros H1 cb1. subst cb1. unfold record_success. rewrite Hst. simpl.
    rewrite bool_decide_eq_true_2 by lia. done.
Qed.

Lemma half_open_transitions_witness :
  let cb := run (init 5 60 (Some 2) (Some 1) "llm_service")
                [RecordFailure 1000; RecordFailure 1001; CanExecute 1002] in
  state cb = HALF_OPEN ∧
  state (record_failure 1003 cb) = OPEN ∧
  (let cb2 := record_success (record_success cb) in
   state cb2 = CLOSED ∧ failure_count cb2 = 0 ∧ success_count cb2 = 0) ∧
  (success_count cb = 0 →
   state (record_success cb) = HALF_OPEN ∧
   success_count (record_success cb) = 1) ∧
  (1 ≤ success_count cb →
   let cb1 := record_success cb in
   state cb1 = CLOSED ∧ failure_count cb1 = 0 ∧ success_count cb1 = 0).
Proof.
  split; [reflexivity|].
  apply (half_open_transitions
           (run (init 5 60 (Some 2) (Some 1) "llm_service")
                [RecordFailure 1000; RecordFailure 1001; CanExecute 1002]) 1003).
  - reflexivity.
  - simpl. lia.
Defined.

(** C6, as stated, fails: after two failures, the timeout and one success,
    a breaker of threshold 2 is half-open with one success counted, and
    the next [record_success], the first of any two that follow, closes
    it. *)
Lemma first_success_stays_half_open_counterexample :
  let cb := run (init 5 60 (Some 2) (Some 1) "llm_service")
                [RecordFailure 1000; RecordFailure 1001; CanExecute 1002;
                 RecordSuccess] in
  reachable cb ∧
  state cb = HALF_OPEN ∧
  success_count cb = 1 ∧
  state (record_success cb) = CLOSED ∧
  ¬ first_success_stays_half_open.
Proof.
  assert (Hreach :
    reachable (run (init 5 60 (Some 2) (Some 1) "llm_service")
                 [RecordFailure 1000; RecordFailure 1001; CanExecute 1002;
                  RecordSuccess])).
  { exists 5, 60, (Some 2), (Some 1), "llm_service",
      [RecordFailure 1000; RecordFailure 1001; CanExecute 1002; RecordSuccess].
    split; [|reflexivity].
    repeat constructor; simpl; intros ? [= <-]; lia. }
  split; [exact Hreach|].
  repeat split; try reflexivity.
  intros H.
  destruct (H _ 1003 Hreach eq_refl) as (_ & _ & Hstay).
  discriminate Hstay.
Qed.

(** The scenario of the specification: threshold 2, timeout 1.  Two
    failures open the breaker; [can_execute] at once is false; after the
    timeout it is true and the breaker is half-open; one success leaves it
    half-open with one success counted; the second closes it. *)
Example threshold_two_timeout_one :
  let cb := init 5 60 (Some 2) (Some 1) "llm_service" in
  states cb [RecordFailure 1000; RecordFailure 1001; CanExecute 1001;
             CanExecute 1002; RecordSuccess; RecordSuccess]
  = [CLOSED; CLOSED; OPEN; OPEN; HALF_OPEN; HALF_OPEN; CLOSED] ∧
  (can_execute 1001 (run cb [RecordFailure 1000; RecordFailure 1001])).1 = false ∧
  (can_execute 1002 (run cb [RecordFailure 1000; RecordFailure 1001])).1 = true ∧
  success_count (run cb [RecordFailure 1000; RecordFailure 1001;
                         CanExecute 1002; RecordSuccess]) = 1 ∧
  failure_count (run cb [RecordFailure 1000; RecordFailure 1001;
                         CanExecute 1002; RecordSuccess; RecordSuccess]) = 0.
Proof. repeat split. Qed.

(** One call changes the state along one of the four edges, or not at all. *)
Lemma step_edge cb c :
  state (step cb c) = state cb ∨ edge (state cb) (state (step cb c)).
Proof.
  unfold edge.
  destruct cb as [nm th to fc lft st sc].
  destruct c as [now| |now]; simpl;
    unfold can_execute, record_success, record_failure; simpl;
    destruct st; simpl;
    repeat match goal with
           | |- context [if ?b then _ else _] => destruct b; simpl
           end;
    auto 10.
Qed.

(** C7: along every sequence of [can_execute], [record_success] and
    [record_failure] calls, from the closed state or any other, every
    change of [state] is closed to open, open to half-open, half-open to
    closed or half-open to open. *)
Theorem only_four_edges (cb : t) (cs : list call) :
  Forall (λ p, edge p.1 p.2) (changes (states cb cs)).
Proof.
  revert cb. induction cs as [|c cs IH]; intros cb.
  - simpl. constructor.
  - specialize (IH (step cb c)).
    change (states cb (c :: cs)) with (state cb :: states (step cb c) cs).
    destruct cs as [|c' cs].
    + simpl in *. destruct (decide _) as [|Hne]; [constructor|].
      constructor; [|constructor]. simpl.
      destruct (step_edge cb c) as [Heq|He]; [congruence | done].
    + change (states (step cb c) (c' :: cs))
        with (state (step cb c) :: states (step (step cb c) c') cs) in *.
      remember (states (step (step cb c) c') cs) as tl.
      simpl. destruct (decide (state cb = state (step cb c))) as [|Hne].
      * exact IH.
      * constructor; [|exact IH]. simpl.
        destruct (step_edge cb c) as [Heq|He]; [congruence | done].
Qed.

End CircuitBreakerSpec.

(* ===================================================================== *)
(** * Properties of the rate limiter *)
(* ===================================================================== *)

Module RateLimiterSpec.
Import RateLimiter.

Lemma timestamps_set identifier l rl :
  timestamps (set_timestamps identifier l rl) identifier = l.
Proof. unfold timestamps, set_timestamps. simpl. by rewrite lookup_insert_eq. Qed.

Lemma set_timestamps_twice identifier l1 l2 rl :
  set_timestamps identifier l2 (set_timestamps identifier l1 rl)
  = set_timestamps identifier l2 rl.
Proof. unfold set_timestamps. simpl. by rewrite insert_insert_eq. Qed.

Lemma filter_all (P : Z → Prop) `{∀ x, Decision (P x)} (l : list Z) :
  Forall P l → filter P l = l.
Proof.
  induction 1 as [|x l Hx _ IH]; [done|].
  rewrite filter_cons_True by done. by rewrite IH.
Qed.

Lemma filter_none (P : Z → Prop) `{∀ x, Decision (P x)} (l : list Z) :
  Forall (λ x, ¬ P x) l → filter P l = [].
Proof.
  induction 1 as [|x l Hx _ IH]; [done|].
  by rewrite filter_cons_False.
Qed.

(** A call below the limit, with every stored timestamp still in the window. *)
Lemma check_admitted current_time now rl identifier max_requests window_seconds :
  Forall (λ ts, now - window_seconds < ts) (timestamps rl identifier) →
  Z.of_nat (length (timestamps rl identifier)) < max_requests →
  max_requests ≠ 0 →
  check_rate_limit current_time now rl identifier (Some max_requests) window_seconds
  = ((true, max_requests - Z.of_nat (length (timestamps rl identifier)) - 1),
     set_timestamps identifier (timestamps rl identifier ++ [current_time]) rl).
Proof.
  intros Hlive Hlt Hne.
  unfold check_rate_limit, _clean_old_requests, py_or.
  rewrite decide_False by done.
  rewrite filter_all by done.
  rewrite timestamps_set.
  rewrite bool_decide_eq_false_2 by lia.
  by rewrite set_timestamps_twice.
Qed.

(** A call at the limit, with every stored timestamp still in the window. *)
Lemma check_rejected current_time now rl identifier max_requests window_seconds :
  Forall (λ ts, now - window_seconds < ts) (timestamps rl identifier) →
  max_requests ≤ Z.of_nat (length (timestamps rl identifier)) →
  max_requests ≠ 0 →
  check_rate_limit current_time now rl identifier (Some max_requests) window_seconds
  = ((false, 0), set_timestamps identifier (timestamps rl identifier) rl).
Proof.
  intros Hlive Hle Hne.
  unfold check_rate_limit, _clean_old_requests, py_or.
  rewrite decide_False by done.
  rewrite filter_all by done.
  rewrite timestamps_set.
  by rewrite bool_decide_eq_true_2 by lia.
Qed.

(** Calls that all see the stored timestamps, and each other's, in the
    window are admitted until the limit is reached. *)
Lemma check_many_live clock : ∀ rl identifier max_requests window_seconds,
  (∀ p, p ∈ clock →
     Forall (λ ts, p.2 - window_seconds < ts) (timestamps rl identifier)) →
  (∀ p q, p ∈ clock → q ∈ clock → q.2 - window_seconds < p.1) →
  Z.of_nat (length (timestamps rl identifier)) + Z.of_nat (length clock)
    ≤ max_requests →
  ∃ rl',
    check_many clock rl identifier (Some max_requests) window_seconds
    = ((λ k, (true, max_requests - k)) <$>
         seqZ (Z.of_nat (length (timestamps rl identifier)) + 1)
              (Z.of_nat (length clock)), rl') ∧
    timestamps rl' identifier = timestamps rl identifier ++ clock.*1.
Proof.
  induction clock as [|[t now] clock IH];
    intros rl identifier max_requests window_seconds Hold Hnew Hlen.
  - exists rl. simpl. by rewrite app_nil_r.
  - simpl length in Hlen.
    assert (Hin : (t, now) ∈ (t, now) :: clock) by left.
    pose proof (Hold _ Hin) as Hlive. simpl in Hlive.
    cbn [check_many].
    rewrite check_admitted by (done || lia).
    set (rl1 := set_timestamps identifier (timestamps rl identifier ++ [t]) rl).
    assert (Hts : timestamps rl1 identifier = timestamps rl identifier ++ [t])
      by apply timestamps_set.
    destruct (IH rl1 identifier max_requests window_seconds) as (rl' & Hrun & Hfin).
    + intros p Hp. rewrite Hts. apply Forall_app. split.
      * apply Hold. by right.
      * constructor; [|constructor]. apply (Hnew (t, now) p); [left | by right].
    + intros p q Hp Hq. apply Hnew; by right.
    + rewrite Hts, length_app. simpl. lia.
    + exists rl'. rewrite Hrun. split.
      * rewrite Hts, length_app. simpl length.
        rewrite (seqZ_cons _ (Z.of_nat (S (length clock)))) by lia.
        rewrite fmap_cons.
        replace (Z.succ (Z.of_nat (length (timestamps rl identifier)) + 1))
          with (Z.of_nat (length (timestamps rl identifier) + 1) + 1) by lia.
        replace (Z.pred (Z.of_nat (S (length clock))))
          with (Z.of_nat (length clock)) by lia.
        replace (max_requests - Z.of_nat (length (timestamps rl identifier)) - 1)
          with (max_requests - (Z.of_nat (length (timestamps rl identifier)) + 1))
          by lia.
        reflexivity.
      * rewrite Hfin, Hts. simpl. by rewrite <- app_assoc.
Qed.

Lemma readings_app c1 c2 : readings (c1 ++ c2) = readings c1 ++ readings c2.
Proof. unfold readings. apply flat_map_app. Qed.

Lemma readings_in_window t0 window_seconds clock p :
  Forall (λ r, t0 ≤ r < t0 + window_seconds) (readings clock) →
  p ∈ clock →
  (t0 ≤ p.1 < t0 + window_seconds) ∧ (t0 ≤ p.2 < t0 + window_seconds).
Proof.
  intros HP Hp. rewrite Forall_forall in HP.
  split; apply HP; unfold readings; apply list_elem_of_In, in_flat_map;
    exists p; (split; [by apply list_elem_of_In | simpl; auto]).
Qed.

(** The scenario of the specification: limit 3, window 60, calls at 0, 1,
    2 and 3. *)
Example limit_three_window_sixty :
  (check_many [(0, 0); (1, 1); (2, 2); (3, 3)] (init 10) "127.0.0.1" (Some 3) 60).1
  = [(true, 2); (true, 1); (true, 0); (false, 0)].
Proof. reflexivity. Qed.

(** Under a clock that does not run backwards, nothing stored is later than
    the reading of a cleanup, and a call keeps it so. *)
Lemma check_keeps_past current_time now rl identifier max_requests window_seconds :
  current_time ≤ now →
  Forall (λ ts, ts ≤ now) (timestamps rl identifier) →
  Forall (λ ts, ts ≤ now)
    (timestamps
       (check_rate_limit current_time now rl identifier max_requests
          window_seconds).2 identifier).
Proof.
  intros Hle Hpast.
  assert (Hkept : Forall (λ ts, ts ≤ now)
            (filter (λ ts, now - window_seconds < ts) (timestamps rl identifier))).
  { apply Forall_forall. intros ts Hts.
    apply list_elem_of_filter in Hts as [_ Hin].
    rewrite Forall_forall in Hpast. by apply Hpast. }
  unfold check_rate_limit, _clean_old_requests.
  rewrite timestamps_set.
  destruct (bool_decide _); simpl; rewrite timestamps_set; [done|].
  apply Forall_app. split; [done|]. by constructor.
Qed.

(** C8: from a state in which nothing stored for the identifier is within a
    window of the calls, [max_requests] calls that all fall in one window
    of [window_seconds] are admitted, the k-th with
    [remaining = max_requests - k], so the last one with 0; the timestamps
    stored are those of the admitted calls; and one more call in the same
    window returns [(False, 0)], does nothing beyond the cleanup, and
    leaves the stored timestamps as they were. *)
Theorem window_admits_exactly_max (rl : t) (identifier : string)
    (max_requests window_seconds t0 : Z) (clock : list (Z * Z)) (extra : Z * Z) :
  1 ≤ max_requests →
  Z.of_nat (length clock) = max_requests →
  Forall (λ r, t0 ≤ r < t0 + window_seconds) (readings (clock ++ [extra])) →
  Forall (λ ts, ts ≤ t0 - window_seconds) (timestamps rl identifier) →
  ∃ rl' rl'',
    check_many clock rl identifier (Some max_requests) window_seconds
    = ((λ k, (true, max_requests - k)) <$> seqZ 1 max_requests, rl') ∧
    last ((λ k, (true, max_requests - k)) <$> seqZ 1 max_requests)
    = Some (true, 0) ∧
    timestamps rl' identifier = clock.*1 ∧
    check_rate_limit extra.1 extra.2 rl' identifier (Some max_requests) window_seconds
    = ((false, 0), rl'') ∧
    rl'' = _clean_old_requests extra.2 rl' identifier window_seconds ∧
    timestamps rl'' identifier = timestamps rl' identifier.
Proof.
  intros Hmax Hlen Hwin Hold.
  rewrite readings_app in Hwin. apply Forall_app in Hwin as [Hclock Hextra].
  assert (Hex : t0 ≤ extra.2 < t0 + window_seconds).
  { apply (readings_in_window t0 window_seconds [extra] extra); [done | left]. }
  destruct clock as [|[t now] clock]; [simpl in Hlen; lia|].
  assert (Hfirst : t0 ≤ t < t0 + window_seconds ∧ t0 ≤ now < t0 + window_seconds).
  { apply (readings_in_window t0 window_seconds ((t, now) :: clock) (t, now));
      [done | left]. }
  cbn [check_many].
  (* the first call finds the window empty *)
  assert (Hcall1 :
    check_rate_limit t now rl identifier (Some max_requests) window_seconds
    = ((true, max_requests - 1), set_timestamps identifier [t] rl)).
  { unfold check_rate_limit, _clean_old_requests, py_or.
    rewrite decide_False by lia.
    rewrite filter_none
      by (eapply Forall_impl; [exact Hold | simpl; intros; lia]).
    rewrite timestamps_set. simpl.
    rewrite bool_decide_eq_false_2 by lia.
    rewrite set_timestamps_twice. repeat f_equal. lia. }
  rewrite Hcall1.
  set (rl1 := set_timestamps identifier [t] rl).
  assert (Hts : timestamps rl1 identifier = [t]) by apply timestamps_set.
  simpl length in Hlen.
  destruct (check_many_live clock rl1 identifier max_requests window_seconds)
    as (rl' & Hrun & Hfin).
  { intros p Hp. rewrite Hts. constructor; [|constructor].
    destruct (readings_in_window t0 window_seconds ((t, now) :: clock) p);
      [done | by right |].
    simpl in *. lia. }
  { intros p q Hp Hq.
    destruct (readings_in_window t0 window_seconds ((t, now) :: clock) p);
      [done | by right |].
    destruct (readings_in_window t0 window_seconds ((t, now) :: clock) q);
      [done | by right |].
    simpl in *. lia. }
  { rewrite Hts. simpl. lia. }
  rewrite Hts in Hrun, Hfin. simpl in Hrun, Hfin.
  rewrite Hrun.
  assert (Hlive : Forall (λ ts, extra.2 - window_seconds < ts)
                    (timestamps rl' identifier)).
  { rewrite Hfin. constructor; [lia|].
    apply Forall_forall. intros ts Hts'.
    apply list_elem_of_fmap in Hts' as (p & -> & Hp).
    destruct (readings_in_window t0 window_seconds ((t, now) :: clock) p);
      [done | by right |].
    simpl in *. lia. }
  exists rl', (set_timestamps identifier (timestamps rl' identifier) rl').
  split; [|split; [|split; [|split; [|split]]]].
  - rewrite (seqZ_cons 1 max_requests) by lia. rewrite fmap_cons.
    repeat f_equal. lia.
  - replace (seqZ 1 max_requests) with (seqZ 1 (Z.of_nat (S (length clock))))
      by (by rewrite Hlen).
    rewrite seqZ_S, fmap_app. simpl.
    rewrite last_snoc. repeat f_equal. lia.
  - exact Hfin.
  - apply check_rejected; [done | | lia].
    rewrite Hfin. simpl length. rewrite length_fmap. lia.
  - unfold _clean_old_requests. by rewrite filter_all.
  - apply timestamps_set.
Qed.

Lemma window_admits_exactly_max_witness :
  ∃ rl' rl'',
    check_many [(0, 0); (1, 1); (2, 2)] (init 10) "127.0.0.1" (Some 3) 60
    = ([(true, 2); (true, 1); (true, 0)], rl') ∧
    last ((λ k, (true, 3 - k)) <$> seqZ 1 3) = Some (true, 0) ∧
    timestamps rl' "127.0.0.1" = [0; 1; 2] ∧
    check_rate_limit 3 3 rl' "127.0.0.1" (Some 3) 60 = ((false, 0), rl'') ∧
    rl'' = _clean_old_requests 3 rl' "127.0.0.1" 60 ∧
    timestamps rl'' "127.0.0.1" = timestamps rl' "127.0.0.1".
Proof.
  apply (window_admits_exactly_max (init 10) "127.0.0.1" 3 60 0
           [(0, 0); (1, 1); (2, 2)] (3, 3)).
  - lia.
  - reflexivity.
  - repeat constructor; simpl; lia.
  - constructor.
Defined.

(** C9: after the cleanup pass of a call, given that nothing stored lies in
    the future of the pass, every timestamp kept for the identifier lies
    in [[now - window_seconds, now]]; and when no stored timestamp is later
    than [t_last], the instant of the last admitted call, and at least
    [window_seconds] have elapsed since [t_last], the call does exactly
    what it does on an empty window: under a limit of at least 1 it is
    admitted with one less than the limit remaining. *)
Theorem cleanup_keeps_window (rl : t) (identifier : string)
    (max_requests : option Z) (window_seconds current_time now : Z) :
  Forall (λ ts, ts ≤ now) (timestamps rl identifier) →
  Forall (λ ts, now - window_seconds ≤ ts ≤ now)
    (timestamps (_clean_old_requests now rl identifier window_seconds) identifier) ∧
  (∀ t_last,
     Forall (λ ts, ts ≤ t_last) (timestamps rl identifier) →
     window_seconds ≤ now - t_last →
     check_rate_limit current_time now rl identifier max_requests window_seconds
     = check_rate_limit current_time now (set_timestamps identifier [] rl)
         identifier max_requests window_seconds ∧
     (1 ≤ py_or max_requests (max_requests_per_minute rl) →
      (check_rate_limit current_time now rl identifier max_requests
         window_seconds).1
      = (true, py_or max_requests (max_requests_per_minute rl) - 1))).
Proof.
  intros Hpast. split.
  - unfold _clean_old_requests. rewrite timestamps_set.
    apply Forall_forall. intros ts Hts.
    apply list_elem_of_filter in Hts as [Hgt Hin].
    rewrite Forall_forall in Hpast. specialize (Hpast ts Hin). lia.
  - intros t_last Hlast Helapsed.
    assert (Hclean :
      filter (λ ts, now - window_seconds < ts) (timestamps rl identifier) = []).
    { apply filter_none. eapply Forall_impl; [exact Hlast|].
      simpl. intros. lia. }
    unfold check_rate_limit, _clean_old_requests.
    rewrite !timestamps_set, Hclean. simpl.
    rewrite !set_timestamps_twice. split; [done|].
    intros Hlimit. rewrite bool_decide_eq_false_2 by lia. simpl.
    f_equal. lia.
Qed.

Lemma cleanup_keeps_window_witness :
  let rl := (check_many [(0, 0); (1, 1); (2, 2)] (init 10) "127.0.0.1" None 60).2 in
  timestamps rl "127.0.0.1" = [0; 1; 2] ∧
  Forall (λ ts, 62 - 60 ≤ ts ≤ 62)
    (timestamps (_clean_old_requests 62 rl "127.0.0.1" 60) "127.0.0.1") ∧
  (check_rate_limit 62 62 rl "127.0.0.1" None 60).1 = (true, 9).
Proof.
  intros rl.
  assert (Hts : timestamps rl "127.0.0.1" = [0; 1; 2]) by (vm_compute; reflexivity).
  split; [exact Hts|].
  destruct (cleanup_keeps_window rl "127.0.0.1" None 60 62 62) as [Hwin Hnext].
  - rewrite Hts. repeat constructor; lia.
  - split; [exact Hwin|].
    destruct (Hnext 2) as [_ Hadm].
    + rewrite Hts. repeat constructor; lia.
    + lia.
    + apply Hadm. vm_compute. discriminate.
Defined.

(** C10: a call with [max_requests = 0] does what a call without the
    argument does, and what a call with the configured default does; with
    a default of at least 1 and an empty window it is admitted. *)
Theorem zero_limit_is_default (rl : t) (identifier : string)
    (window_seconds current_time now : Z) :
  check_rate_limit current_time now rl identifier (Some 0) window_seconds
  = check_rate_limit current_time now rl identifier None window_seconds ∧
  check_rate_limit current_time now rl identifier (Some 0) window_seconds
  = check_rate_limit current_time now rl identifier
      (Some (max_requests_per_minute rl)) window_seconds ∧
  (1 ≤ max_requests_per_minute rl →
   timestamps rl identifier = [] →
   (check_rate_limit current_time now rl identifier (Some 0) window_seconds).1
   = (true, max_requests_per_minute rl - 1)).
Proof.
  split; [|split].
  - reflexivity.
  - unfold check_rate_limit, py_or. simpl.
    destruct (decide (max_requests_per_minute rl = 0)) as [->|]; reflexivity.
  - intros Hdef Hempty.
    unfold check_rate_limit, _clean_old_requests, py_or. simpl.
    rewrite !timestamps_set, Hempty. simpl.
    rewrite bool_decide_eq_false_2 by lia. simpl. f_equal. lia.
Qed.

Lemma zero_limit_is_default_witness :
  (check_rate_limit 1000 1000 (init 10) "127.0.0.1" (Some 0) 60).1 = (true, 9).
Proof.
  apply (zero_limit_is_default (init 10) "127.0.0.1" 60 1000 1000).
  - simpl. lia.
  - reflexivity.
Defined.

End RateLimiterSpec.

(* ===================================================================== *)
(** * Properties of the retried generation call *)
(* ===================================================================== *)

Module LLMServiceSpec.
Import Py Runtime LLMService.

Lemma set_breaker_same w : set_breaker (llm_circuit_breaker w) w = w.
Proof. by destruct w. Qed.

(** [can_execute] changes the breaker only when it lets a probe through. *)
Lemma can_execute_false now cb :
  (CircuitBreaker.can_execute now cb).1 = false →
  CircuitBreaker.can_execute now cb = (false, cb).
Proof.
  unfold CircuitBreaker.can_execute.
  destruct (CircuitBreaker.state cb); simpl; try discriminate.
  destruct (CircuitBreaker.timeout_passed now cb); simpl; [discriminate | done].
Qed.

(** An attempt that the breaker rejects: the breaker-open error, and
    nothing else happens. *)
Lemma body_rejected self prompt request_id env w :
  admits_next env w = false →
  generate_ui_code_body self prompt request_id env w
  = (Raise (CircuitBreakerOpenError breaker_open_message),
     set_attempts_made (S (attempts_made w)) w).
Proof.
  unfold admits_next. intros Hrej. apply can_execute_false in Hrej.
  unfold generate_ui_code_body, bind, enter, can_execute. simpl.
  rewrite Hrej. simpl. unfold raise.
  by rewrite (set_breaker_same (set_attempts_made _ w)).
Qed.

(** An attempt that the breaker admits and that finds no client: the
    failure is recorded in the breaker and wrapped as [LLMServiceError]. *)
Lemma body_without_client self prompt request_id env w :
  has_client self = false →
  admits_next env w = true →
  generate_ui_code_body self prompt request_id env w
  = (Raise (LLMServiceError
              "Failed to generate UI code: OpenAI API key not configured"),
     let a := attempts env (attempts_made w) in
     set_breaker
       (CircuitBreaker.record_failure (t_fail a)
          (CircuitBreaker.can_execute (t_check a) (llm_circuit_breaker w)).2)
       (set_attempts_made (S (attempts_made w)) w)).
Proof.
  unfold admits_next. intros Hnone Hadm.
  unfold generate_ui_code_body, bind, enter, can_execute. simpl.
  destruct (CircuitBreaker.can_execute _ _) as [ok cb] eqn:Hcan.
  simpl in Hadm. subst ok. simpl.
  unfold try_except. rewrite Hnone. simpl. reflexivity.
Qed.

(** What every attempt without a client comes to. *)
Lemma body_without_client_fails self prompt request_id env w :
  has_client self = false →
  ∃ e w1,
    generate_ui_code_body self prompt request_id env w = (Raise e, w1) ∧
    is_LLMServiceError e = true ∧
    attempts_made w1 = S (attempts_made w) ∧
    api_calls w1 = api_calls w ∧
    sleeps w1 = sleeps w.
Proof.
  intros Hnone. destruct (admits_next env w) eqn:Hadm.
  - rewrite body_without_client by done. eauto 10.
  - rewrite body_rejected by done. eauto 10.
Qed.

(** The first step of the retry policy after a retriable failure. *)
Lemma retry_from_retriable {A} remaining attempt_number (fn : M A) env w e w1 :
  fn env w = (Raise e, w1) →
  is_LLMServiceError e = true →
  retry_from (S remaining) attempt_number fn env w
  = retry_from remaining (attempt_number + 1) fn env
      (set_sleeps (sleeps w1 ++ [wait_exponential 1 1 10 attempt_number]) w1).
Proof.
  intros Hfn He. simpl. unfold try_except. rewrite Hfn, He. reflexivity.
Qed.

(** C1 (amended): an attempt at which [can_execute] returns false raises
    the breaker-open error without a call of the API and without a change
    of the breaker.  The error is an [LLMServiceError], so the retry policy
    treats it as retriable: after the first rejected attempt the policy
    waits and attempts again; when the breaker rejects all three attempts
    the call ends with the breaker-open error after three attempts and two
    backoff waits, the API never called. *)
Theorem breaker_open_is_retried (self : t) (prompt request_id : string)
    (env : Env) (w : World) :
  admits_next env w = false →
  let w1 := set_attempts_made (S (attempts_made w)) w in
  generate_ui_code_body self prompt request_id env w
  = (Raise (CircuitBreakerOpenError breaker_open_message), w1) ∧
  is_LLMServiceError (CircuitBreakerOpenError breaker_open_message) = true ∧
  generate_ui_code self prompt request_id env w
  = retry_from 1 2 (generate_ui_code_body self prompt request_id) env
      (set_sleeps (sleeps w ++ [wait_exponential 1 1 10 1]) w1) ∧
  (let w2 := set_attempts_made (S (S (attempts_made w))) w in
   admits_next env w1 = false →
   admits_next env w2 = false →
   generate_ui_code self prompt request_id env w
   = (Raise (CircuitBreakerOpenError breaker_open_message),
      set_sleeps (sleeps w ++ [wait_exponential 1 1 10 1; wait_exponential 1 1 10 2])
        (set_attempts_made (S (S (S (attempts_made w)))) w))).
Proof.
  intros Hrej w1.
  pose proof (body_rejected self prompt request_id env w Hrej) as Hbody.
  split; [exact Hbody|]. split; [reflexivity|].
  assert (Hfirst :
    generate_ui_code self prompt request_id env w
    = retry_from 1 2 (generate_ui_code_body self prompt request_id) env
        (set_sleeps (sleeps w ++ [wait_exponential 1 1 10 1]) w1)).
  { unfold generate_ui_code, retry. simpl Nat.sub.
    by rewrite (retry_from_retriable _ _ _ _ _ _ _ Hbody). }
  split; [exact Hfirst|].
  intros w2 Hrej1 Hrej2. rewrite Hfirst.
  set (s1 := set_sleeps (sleeps w ++ [wait_exponential 1 1 10 1]) w1).
  assert (Hbody1 : generate_ui_code_body self prompt request_id env s1
            = (Raise (CircuitBreakerOpenError breaker_open_message),
               set_attempts_made (S (attempts_made s1)) s1))
    by (apply body_rejected; exact Hrej1).
  rewrite (retry_from_retriable _ _ _ _ _ _ _ Hbody1) by reflexivity.
  simpl retry_from.
  rewrite body_rejected.
  - subst s1 w1. destruct w. simpl. by rewrite <- app_assoc.
  - exact Hrej2.
Qed.

Lemma breaker_open_is_retried_witness :
  let w := Scenario.submitted Scenario.tripped_breaker in
  admits_next Scenario.answering w = false ∧
  generate_ui_code Scenario.with_key "a button" "job-1" Scenario.answering w
  = (Raise (CircuitBreakerOpenError breaker_open_message),
     set_sleeps [1; 2] (set_attempts_made 3 w)).
Proof.
  split; [reflexivity|].
  apply (breaker_open_is_retried Scenario.with_key "a button" "job-1"
           Scenario.answering (Scenario.submitted Scenario.tripped_breaker));
    reflexivity.
Defined.

(** C1, as stated, fails: with the breaker open, the call makes three
    attempts and waits twice before the breaker-open error leaves it. *)
Lemma breaker_open_never_retried_counterexample :
  let w := Scenario.submitted Scenario.tripped_breaker in
  let r := generate_ui_code Scenario.with_key "a button" "job-1"
             Scenario.answering w in
  admits_next Scenario.answering w = false ∧
  r.1 = Raise (CircuitBreakerOpenError breaker_open_message) ∧
  attempts_made r.2 = 3%nat ∧
  sleeps r.2 = [1; 2] ∧
  api_calls r.2 = 0%nat ∧
  ¬ breaker_open_never_retried.
Proof.
  repeat split; try reflexivity.
  intros H.
  destruct (H Scenario.with_key "a button" "job-1" Scenario.answering
              (Scenario.submitted Scenario.tripped_breaker) eq_refl)
    as (msg & w' & Hrun & Hatt & _).
  assert (Hthree :
    attempts_made
      (generate_ui_code Scenario.with_key "a button" "job-1" Scenario.answering
         (Scenario.submitted Scenario.tripped_breaker)).2 = 3%nat)
    by reflexivity.
  rewrite Hrun in Hthree. simpl in Hthree, Hatt. congruence.
Qed.

(** C2 (amended): without an API key, an attempt that the breaker admits
    raises inside the [try] block, so that the handler records a failure in
    the breaker and raises an [LLMServiceError]; every attempt of such a
    call fails with a retriable error, and the call ends with that error
    after three attempts and two backoff waits, the API never called. *)
Theorem missing_key_is_retried (self : t) (prompt request_id : string)
    (env : Env) (w : World) :
  has_client self = false →
  (admits_next env w = true →
   generate_ui_code_body self prompt request_id env w
   = (Raise (LLMServiceError
               "Failed to generate UI code: OpenAI API key not configured"),
      let a := attempts env (attempts_made w) in
      set_breaker
        (CircuitBreaker.record_failure (t_fail a)
           (CircuitBreaker.can_execute (t_check a) (llm_circuit_breaker w)).2)
        (set_attempts_made (S (attempts_made w)) w))) ∧
  ∃ e w',
    generate_ui_code self prompt request_id env w = (Raise e, w') ∧
    is_LLMServiceError e = true ∧
    attempts_made w' = (attempts_made w + 3)%nat ∧
    api_calls w' = api_calls w ∧
    sleeps w'
    = sleeps w ++ [wait_exponential 1 1 10 1; wait_exponential 1 1 10 2].
Proof.
  intros Hnone. split; [by apply body_without_client|].
  destruct (body_without_client_fails self prompt request_id env w Hnone)
    as (e1 & w1 & Hb1 & He1 & Ha1 & Hc1 & Hs1).
  unfold generate_ui_code, retry. simpl Nat.sub.
  rewrite (retry_from_retriable _ _ _ _ _ _ _ Hb1 He1).
  set (s1 := set_sleeps _ w1).
  destruct (body_without_client_fails self prompt request_id env s1 Hnone)
    as (e2 & w2 & Hb2 & He2 & Ha2 & Hc2 & Hs2).
  rewrite (retry_from_retriable _ _ _ _ _ _ _ Hb2 He2).
  set (s2 := set_sleeps _ w2).
  destruct (body_without_client_fails self prompt request_id env s2 Hnone)
    as (e3 & w3 & Hb3 & He3 & Ha3 & Hc3 & Hs3).
  simpl retry_from. exists e3, w3.
  split; [exact Hb3|]. split; [exact He3|].
  subst s1 s2. simpl in *.
  split; [lia|]. split; [congruence|].
  rewrite Hs3, Hs2, Hs1. by rewrite <- app_assoc.
Qed.

Lemma missing_key_is_retried_witness :
  let w := Scenario.submitted Scenario.fresh_breaker in
  ∃ e w',
    generate_ui_code Scenario.without_key "a button" "job-1" Scenario.answering w
    = (Raise e, w') ∧
    is_LLMServiceError e = true ∧
    attempts_made w' = 3%nat ∧
    api_calls w' = 0%nat ∧
    sleeps w' = [1; 2].
Proof.
  apply (missing_key_is_retried Scenario.without_key "a button" "job-1"
           Scenario.answering (Scenario.submitted Scenario.fresh_breaker)).
  reflexivity.
Defined.

(** C2, as stated, fails: without an API key the call makes three attempts,
    and each of them counts as a failure in the breaker. *)
Lemma missing_key_never_retried_counterexample :
  let w := Scenario.submitted Scenario.fresh_breaker in
  let r := generate_ui_code Scenario.without_key "a button" "job-1"
             Scenario.answering w in
  has_client Scenario.without_key = false ∧
  admits_next Scenario.answering w = true ∧
  r.1 = Raise (LLMServiceError
                 "Failed to generate UI code: OpenAI API key not configured") ∧
  attempts_made r.2 = 3%nat ∧
  sleeps r.2 = [1; 2] ∧
  CircuitBreaker.failure_count (llm_circuit_breaker w) = 0 ∧
  CircuitBreaker.failure_count (llm_circuit_breaker r.2) = 3 ∧
  ¬ missing_key_never_retried.
Proof.
  repeat split; try reflexivity.
  intros H.
  destruct (H Scenario.without_key "a button" "job-1" Scenario.answering
              (Scenario.submitted Scenario.fresh_breaker) eq_refl eq_refl)
    as (e & w' & Hrun & Hatt & _).
  assert (Hthree :
    attempts_made
      (generate_ui_code Scenario.without_key "a button" "job-1"
         Scenario.answering (Scenario.submitted Scenario.fresh_breaker)).2
    = 3%nat)
    by reflexivity.
  rewrite Hrun in Hthree. simpl in Hthree, Hatt. congruence.
Qed.

End LLMServiceSpec.

(* ===================================================================== *)
(** * Properties of the background task *)
(* ===================================================================== *)

Module ServerSpec.
Import Py Runtime Server.

(** The generation call does not touch the store. *)
Lemma body_store_untouched self prompt request_id env w :
  let w' := (LLMService.generate_ui_code_body self prompt request_id env w).2 in
  writes w' = writes w ∧ generations_collection w' = generations_collection w.
Proof.
  unfold LLMService.generate_ui_code_body, bind, try_except, LLMService.enter,
    LLMService.can_execute, LLMService.create, LLMService.record_success,
    LLMService.record_failure, LLMService.first_content_stripped,
    modify, raise, ret.
  unfold bind. simpl.
  repeat (case_match; simpl in *; simplify_eq; try done).
Qed.

Lemma retry_store_untouched {A} remaining : ∀ attempt_number (fn : M A) env w,
  (∀ env w, writes (fn env w).2 = writes w ∧
            generations_collection (fn env w).2 = generations_collection w) →
  writes (LLMService.retry_from remaining attempt_number fn env w).2 = writes w ∧
  generations_collection (LLMService.retry_from remaining attempt_number fn env w).2
  = generations_collection w.
Proof.
  induction remaining as [|remaining IH]; intros attempt_number fn env w Hfn.
  - apply Hfn.
  - simpl. unfold try_except.
    destruct (Hfn env w) as [Hw Hc].
    destruct (fn env w) as [[a|e] w1] eqn:Hrun; simpl in *; [done|].
    destruct (is_LLMServiceError e); [|done].
    unfold bind, LLMService.sleep, modify. simpl.
    destruct (IH (attempt_number + 1) fn env
                (set_sleeps (sleeps w1 ++ [LLMService.wait_exponential 1 1 10 attempt_number]) w1)
                Hfn) as [Hw' Hc'].
    simpl in *. split; congruence.
Qed.

Lemma generate_store_untouched self prompt request_id env w :
  let w' := (LLMService.generate_ui_code self prompt request_id env w).2 in
  writes w' = writes w ∧ generations_collection w' = generations_collection w.
Proof.
  apply retry_store_untouched. intros. apply body_store_untouched.
Qed.

Lemma status_of_first job_id v rest :
  status_of (job_id, ("status", v) :: rest) = Some v.
Proof. unfold status_of. simpl. apply lookup_insert_eq. Qed.

Lemma terminal_writes_snoc l u :
  is_terminal u = true → terminal_writes (l ++ [u]) = terminal_writes l ++ [u].
Proof. intros Hu. unfold terminal_writes. rewrite List.filter_app. simpl. by rewrite Hu. Qed.

Lemma is_terminal_success job_id rest :
  is_terminal (job_id, ("status", VStr "success") :: rest) = true.
Proof. unfold is_terminal. by rewrite status_of_first. Qed.

Lemma is_terminal_failed job_id rest :
  is_terminal (job_id, ("status", VStr "failed") :: rest) = true.
Proof. unfold is_terminal. by rewrite status_of_first. Qed.

Lemma get_field_insert d k v k' :
  get_field (<[k := v]> d) k' = if decide (k = k') then v else get_field d k'.
Proof.
  unfold get_field. rewrite lookup_insert. by destruct (decide (k = k')).
Qed.

(** The three behaviours of [update_one]. *)
Lemma update_one_applied e job_id fields env w :
  raises e = None →
  update_one e job_id fields env w
  = (Return tt,
     set_writes (writes w ++ [(job_id, fields)])
       (set_collection (apply_update job_id fields (generations_collection w)) w)).
Proof. intros He. unfold update_one. by rewrite He. Qed.

Lemma update_one_raises e job_id fields env w ex :
  raises e = Some ex →
  applied_before_raising e = false →
  update_one e job_id fields env w = (Raise ex, w).
Proof. intros He Ha. unfold update_one. by rewrite He, Ha. Qed.

Lemma update_one_lost e job_id fields env w ex :
  raises e = Some ex →
  applied_before_raising e = true →
  update_one e job_id fields env w
  = (Raise ex,
     set_writes (writes w ++ [(job_id, fields)])
       (set_collection (apply_update job_id fields (generations_collection w)) w)).
Proof. intros He Ha. unfold update_one. by rewrite He, Ha. Qed.

(** One [update_one], by what the store does: the updates it applies (none
    or the one asked for), and how the call ends. *)
Lemma update_one_cases e job_id fields env w :
  let r := update_one e job_id fields env w in
  ∃ applied : list (list (string * value)),
    writes r.2 = writes w ++ (pair job_id <$> applied) ∧
    generations_collection r.2
    = foldl (λ c f, apply_update job_id f c) (generations_collection w) applied ∧
    ((r.1 = Return tt ∧ raises e = None ∧ applied = [fields]) ∨
     (∃ ex, r.1 = Raise ex ∧ raises e = Some ex ∧
            applied = if applied_before_raising e then [fields] else [])).
Proof.
  intros r. subst r.
  destruct (raises e) as [ex|] eqn:He.
  - destruct (applied_before_raising e) eqn:Ha.
    + rewrite (update_one_lost _ _ _ _ _ ex He Ha).
      exists [fields]. simpl. repeat split. right. by exists ex.
    + rewrite (update_one_raises _ _ _ _ _ ex He Ha).
      exists []. simpl. rewrite app_nil_r. repeat split. right. by exists ex.
  - rewrite update_one_applied by done.
    exists [fields]. simpl. repeat split. by left.
Qed.

Ltac fields :=
  unfold set_fields; simpl foldl;
  repeat (rewrite get_field_insert; destruct (decide _) as [?|?]; try done).

(** A write is not both a success write and a failed write. *)
Lemma shapes_exclusive job_id u :
  ¬ (success_shape job_id u ∧ failed_shape job_id u).
Proof.
  intros [(c & e & t & ->) (m & t' & Heq)]. discriminate Heq.
Qed.

Lemma is_terminal_shape job_id final :
  success_shape job_id (job_id, final) ∨ failed_shape job_id (job_id, final) →
  is_terminal (job_id, final) = true.
Proof.
  intros [(c & e & t & [= ->])|(m & t & [= ->])].
  - apply is_terminal_success.
  - apply is_terminal_failed.
Qed.

(** The update of the exception handler. *)
Lemma handler_cases e job_id env w :
  let r := update_one (failed_write env) job_id
             [("status", VStr "failed");
              ("error_message", VStr (str e));
              ("updated_at", VStr (iso_now (failed_write env)))] env w in
  ∃ last : list (list (string * value)),
    (last = [] ∨ ∃ f, last = [f] ∧ failed_shape job_id (job_id, f)) ∧
    writes r.2 = writes w ++ (pair job_id <$> last) ∧
    generations_collection r.2
    = foldl (λ c f, apply_update job_id f c) (generations_collection w) last ∧
    (r.1 = Return tt → last ≠ []) ∧
    (∀ ex, r.1 = Raise ex → raises (failed_write env) = Some ex).
Proof.
  intros r. subst r.
  destruct (update_one_cases (failed_write env) job_id
              [("status", VStr "failed");
               ("error_message", VStr (str e));
               ("updated_at", VStr (iso_now (failed_write env)))] env w)
    as (applied & Hw & Hc & Hend).
  exists applied. split; [|split; [exact Hw|split; [exact Hc|split]]].
  - destruct Hend as [(_ & _ & ->)|(ex & _ & _ & ->)].
    + right. eexists. split; [done|]. by eexists _, _.
    + destruct (applied_before_raising (failed_write env)); [|by left].
      right. eexists. split; [done|]. by eexists _, _.
  - intros Hret. destruct Hend as [(_ & _ & ->)|(ex & Hex & _)]; [done|].
    rewrite Hret in Hex. discriminate Hex.
  - intros ex Hraise. destruct Hend as [(Hret & _)|(ex' & Hex & Hsome & _)].
    + rewrite Hraise in Hret. discriminate Hret.
    + rewrite Hraise in Hex. by injection Hex as ->.
Qed.

(** The collection after a list of updates of one job, in order. *)
Lemma apply_updates_snoc job_id updates fields c :
  foldl (λ c f, apply_update job_id f c) c (updates ++ [fields])
  = apply_update job_id fields (foldl (λ c f, apply_update job_id f c) c updates).
Proof. by rewrite foldl_app. Qed.

(** The runs of the task, by what the store and the generation call do: the
    updates that the store applies are the running update, a success write
    and a failed write, in this order and each at most once. *)
Lemma process_generation_cases (llm_service : LLMService.t) (job_id prompt : string)
    (env : Env) (w : World) :
  let r := process_generation llm_service job_id prompt env w in
  let running := [("status", VStr "running");
                  ("updated_at", VStr (iso_now (running_write env)))] in
  ∃ before mid last : list (list (string * value)),
    (before = [] ∨ before = [running]) ∧
    (mid = [] ∨ ∃ s, mid = [s] ∧ success_shape job_id (job_id, s)) ∧
    (last = [] ∨ ∃ f, last = [f] ∧ failed_shape job_id (job_id, f)) ∧
    writes r.2 = writes w ++ (pair job_id <$> before ++ mid ++ last) ∧
    generations_collection r.2
    = foldl (λ c f, apply_update job_id f c) (generations_collection w)
        (before ++ mid ++ last) ∧
    (mid ≠ [] → before = [running] ∧ raises (running_write env) = None) ∧
    (mid ≠ [] → last ≠ [] → applied_then_raised (success_write env)) ∧
    (r.1 = Return tt → mid ≠ [] ∨ last ≠ []) ∧
    (∀ ex, r.1 = Raise ex → raises (failed_write env) = Some ex).
Proof.
  intros r running. subst r.
  unfold process_generation, bind, ask, try_except. simpl.
  fold running.
  destruct (update_one_cases (running_write env) job_id running env w)
    as (a1 & Hw1 & Hc1 & Hend1).
  destruct (update_one (running_write env) job_id running env w)
    as [[[]|ex1] w1]; simpl in Hw1, Hc1, Hend1.
  - (* the running update returns *)
    destruct Hend1 as [(_ & Hok1 & ->)|(ex & Hex & _)]; [|discriminate Hex].
    pose proof (generate_store_untouched llm_service prompt job_id env w1)
      as [Hw2 Hc2].
    destruct (LLMService.generate_ui_code llm_service prompt job_id env w1)
      as [[result|e] w2]; simpl in Hw2, Hc2.
    + (* the generation returns *)
      match goal with
      | |- context [update_one (success_write env) job_id ?f env w2] =>
          set (success := f)
      end.
      assert (Hshape : success_shape job_id (job_id, success))
        by (by eexists _, _, _).
      destruct (update_one_cases (success_write env) job_id success env w2)
        as (a3 & Hw3 & Hc3 & Hend3).
      destruct (update_one (success_write env) job_id success env w2)
        as [[[]|ex3] w3]; simpl in Hw3, Hc3, Hend3.
      * (* the success update returns *)
        destruct Hend3 as [(_ & Hok3 & ->)|(ex & Hex & _)]; [|discriminate Hex].
        exists [running], [success], []. simpl.
        split; [by right|]. split; [right; eauto|]. split; [by left|].
        split; [by rewrite Hw3, Hw2, Hw1, <- app_assoc|].
        split; [by rewrite Hc3, Hc2, Hc1|].
        split; [done|]. split; [done|]. split; [by left|]. done.
      * (* the success update raises *)
        destruct Hend3 as [(Hret & _)|(ex & _ & Hsome3 & ->)];
          [discriminate Hret|].
        destruct (handler_cases ex3 job_id env w3)
          as (last & Hlast & Hw4 & Hc4 & Hret & Hraise).
        exists [running],
          (if applied_before_raising (success_write env) then [success] else []),
          last.
        split; [by right|].
        split; [destruct (applied_before_raising (success_write env));
                [right; eauto | by left]|].
        split; [exact Hlast|].
        split.
        { rewrite Hw4, Hw3, Hw2, Hw1, !fmap_app, <- !app_assoc. done. }
        split.
        { rewrite Hc4, Hc3, Hc2, Hc1, !foldl_app. done. }
        split; [done|].
        split.
        { intros Hmid _. split; [by exists ex|].
          by destruct (applied_before_raising (success_write env)). }
        split; [intros Hr; right; by apply Hret|].
        exact Hraise.
    + (* the generation raises *)
      destruct (handler_cases e job_id env w2)
        as (last & Hlast & Hw4 & Hc4 & Hret & Hraise).
      exists [running], [], last.
      split; [by right|]. split; [by left|]. split; [exact Hlast|].
      split.
      { rewrite Hw4, Hw2, Hw1, !fmap_app, <- !app_assoc. done. }
      split.
      { rewrite Hc4, Hc2, Hc1, !foldl_app. done. }
      split; [done|]. split; [done|].
      split; [intros Hr; right; by apply Hret|].
      exact Hraise.
  - (* the running update raises *)
    destruct Hend1 as [(Hret & _)|(ex & _ & Hsome1 & ->)];
      [discriminate Hret|].
    destruct (handler_cases ex1 job_id env w1)
      as (last & Hlast & Hw4 & Hc4 & Hret & Hraise).
    exists (if applied_before_raising (running_write env) then [running] else []),
      [], last.
    split; [destruct (applied_before_raising (running_write env)); auto|].
    split; [by left|]. split; [exact Hlast|].
    split.
    { rewrite Hw4, Hw1, !fmap_app, <- !app_assoc. done. }
    split.
    { rewrite Hc4, Hc1, !foldl_app. done. }
    split; [done|]. split; [done|].
    split; [intros Hr; right; by apply Hret|].
    exact Hraise.
Qed.

Lemma lookup_set_fields fields (d : gmap string value) k :
  k ∉ fields.*1 → set_fields fields d !! k = d !! k.
Proof.
  unfold set_fields. revert d.
  induction fields as [|[k' v] fields IH]; intros d Hk; [done|].
  simpl in *. apply not_elem_of_cons in Hk as [Hne Hk].
  rewrite IH by done. by rewrite lookup_insert_ne.
Qed.

Lemma matches_set_fields job_id fields d :
  "job_id" ∉ fields.*1 → matches job_id (set_fields fields d) = matches job_id d.
Proof. intros Hk. unfold matches. by rewrite lookup_set_fields. Qed.

Lemma length_apply_update job_id fields c :
  length (apply_update job_id fields c) = length c.
Proof.
  induction c as [|d c IH]; [done|]. simpl.
  destruct (matches job_id d); simpl; by rewrite ?IH.
Qed.

Lemma matches_other job_id other d :
  other ≠ job_id → matches job_id d = true → matches other d = false.
Proof.
  unfold matches. intros Hne Hm.
  apply bool_decide_eq_true in Hm. rewrite Hm.
  apply bool_decide_eq_false. congruence.
Qed.

Lemma find_one_apply_other job_id other fields c :
  other ≠ job_id → "job_id" ∉ fields.*1 →
  find_one other (apply_update job_id fields c) = find_one other c.
Proof.
  intros Hne Hk. induction c as [|d c IH]; [done|]. simpl.
  destruct (matches job_id d) eqn:Hm; simpl.
  - rewrite matches_set_fields by done.
    by rewrite (matches_other job_id other d).
  - by rewrite IH.
Qed.

Lemma find_one_apply_same job_id fields c :
  "job_id" ∉ fields.*1 →
  find_one job_id (apply_update job_id fields c)
  = set_fields fields <$> find_one job_id c.
Proof.
  intros Hk. induction c as [|d c IH]; [done|]. simpl.
  destruct (matches job_id d) eqn:Hm; simpl.
  - by rewrite matches_set_fields, Hm.
  - by rewrite Hm, IH.
Qed.

(** What a list of updates of the result fields does to a collection. *)
Lemma result_updates_frame job_id updates : ∀ c,
  Forall (λ f, f.*1 ⊆ Api.result_keys) updates →
  let c' := foldl (λ c f, apply_update job_id f c) c updates in
  length c' = length c ∧
  (∀ other, other ≠ job_id → find_one other c' = find_one other c) ∧
  find_one job_id c'
  = (λ d, foldl (λ d f, set_fields f d) d updates) <$> find_one job_id c ∧
  (∀ d k,
     k ∉ Api.result_keys →
     foldl (λ d f, set_fields f d) d updates !! k = d !! k).
Proof.
  assert (Hjob : "job_id" ∉ Api.result_keys).
  { unfold Api.result_keys. rewrite !not_elem_of_cons.
    repeat split; try done. apply not_elem_of_nil. }
  induction updates as [|f updates IH]; intros c Hall; simpl.
  - repeat split; try done. by destruct (find_one job_id c).
  - inversion Hall as [|? ? Hf Hrest]; subst.
    assert (Hnot : "job_id" ∉ f.*1) by (intros Hin; by apply Hjob, Hf).
    destruct (IH (apply_update job_id f c) Hrest) as (Hlen & Hother & Hsame & Hkeep).
    repeat split.
    + by rewrite Hlen, length_apply_update.
    + intros other Hne. rewrite Hother by done.
      by apply find_one_apply_other.
    + rewrite Hsame, find_one_apply_same by done.
      by destruct (find_one job_id c).
    + intros d k Hk. rewrite Hkeep by done.
      apply lookup_set_fields. intros Hin. by apply Hk, Hf.
Qed.

Ltac keys_subset :=
  let k := fresh "k" in
  let Hk := fresh "Hk" in
  unfold Api.result_keys; simpl; intros k Hk;
  repeat (apply elem_of_cons in Hk as [->|Hk]);
  try (by apply elem_of_nil in Hk);
  rewrite !elem_of_cons; auto 10.

Lemma shape_keys job_id final :
  success_shape job_id (job_id, final) ∨ failed_shape job_id (job_id, final) →
  final.*1 ⊆ Api.result_keys.
Proof.
  intros [(c & e & t & [= ->])|(m & t & [= ->])]; keys_subset.
Qed.

Lemma running_keys_result t :
  [("status", VStr "running"); ("updated_at", t)].*1 ⊆ Api.result_keys.
Proof. keys_subset. Qed.

(** The updates of a run are all of result fields. *)
Lemma run_keys job_id t (before mid last : list (list (string * value))) :
  (before = [] ∨ before = [[("status", VStr "running"); ("updated_at", t)]]) →
  (mid = [] ∨ ∃ s, mid = [s] ∧ success_shape job_id (job_id, s)) →
  (last = [] ∨ ∃ f, last = [f] ∧ failed_shape job_id (job_id, f)) →
  Forall (λ f, f.*1 ⊆ Api.result_keys) (before ++ mid ++ last).
Proof.
  intros Hb Hm Hl. rewrite !Forall_app. split; [|split].
  - destruct Hb as [->| ->]; [constructor|].
    constructor; [apply running_keys_result | constructor].
  - destruct Hm as [->|(s & -> & Hs)]; [constructor|].
    constructor; [apply (shape_keys job_id); by left | constructor].
  - destruct Hl as [->|(f & -> & Hf)]; [constructor|].
    constructor; [apply (shape_keys job_id); by right | constructor].
Qed.

(** The updates of a run, all of result fields, and the collection after
    it. *)
Lemma process_generation_updates llm_service job_id prompt env w :
  ∃ updates,
    Forall (λ f, f.*1 ⊆ Api.result_keys) updates ∧
    generations_collection (process_generation llm_service job_id prompt env w).2
    = foldl (λ c f, apply_update job_id f c) (generations_collection w) updates.
Proof.
  destruct (process_generation_cases llm_service job_id prompt env w)
    as (before & mid & last & Hb & Hm & Hl & _ & Hc & _).
  exists (before ++ mid ++ last). split; [|exact Hc].
  by apply (run_keys job_id (VStr (iso_now (running_write env)))).
Qed.

(** C3 (amended): whenever the update that the exception handler issues is
    applied and returns, and the store does not raise on the success update
    after having applied it, the task returns normally and the store has
    applied exactly one terminal write for the job: a success write, which
    carries the generated code and the explanation and leaves the error
    message of the pending record null, or a failed write, which carries
    the error message and leaves the generated code of the pending record
    null. *)
Theorem one_terminal_write (llm_service : LLMService.t) (job_id prompt : string)
    (env : Env) (w : World) :
  raises (failed_write env) = None →
  ¬ applied_then_raised (success_write env) →
  ∃ u w',
    process_generation llm_service job_id prompt env w = (Return tt, w') ∧
    terminal_writes (writes w') = terminal_writes (writes w) ++ [u] ∧
    (success_shape job_id u ∨ failed_shape job_id u) ∧
    ∀ d,
      find_one job_id (generations_collection w) = Some d →
      get_field d "generated_code" = VNull →
      get_field d "error_message" = VNull →
      ∃ d',
        find_one job_id (generations_collection w') = Some d' ∧
        ((success_shape job_id u ∧ success_record d') ∨
         (failed_shape job_id u ∧ failed_record d')).
Proof.
  intros Hfail Hack.
  destruct (process_generation_cases llm_service job_id prompt env w)
    as (before & mid & last & Hb & Hm & Hl & Hw & Hc & _ & Hboth & Hret & Hraise).
  destruct (process_generation llm_service job_id prompt env w)
    as [[[]|ex] w'] eqn:Hrun; simpl in Hw, Hc, Hret, Hraise.
  2: { specialize (Hraise ex eq_refl). congruence. }
  assert (Hone : ∃ final,
            mid ++ last = [final] ∧
            ((success_shape job_id (job_id, final) ∧ last = []) ∨
             (failed_shape job_id (job_id, final) ∧ mid = []))).
  { destruct Hm as [->|(s & -> & Hs)], Hl as [->|(f & -> & Hf)].
    - by destruct (Hret eq_refl).
    - exists f. eauto.
    - exists s. eauto.
    - destruct Hack. by apply Hboth. }
  destruct Hone as (final & Hfinal & Hshape).
  assert (Hkeys : Forall (λ f, f.*1 ⊆ Api.result_keys) (before ++ mid ++ last))
    by (by apply (run_keys job_id (VStr (iso_now (running_write env))))).
  rewrite Hfinal in Hw, Hc, Hkeys.
  exists (job_id, final), w'. split; [done|].
  assert (Hshape' : success_shape job_id (job_id, final)
                    ∨ failed_shape job_id (job_id, final))
    by (destruct Hshape as [[? _]|[? _]]; auto).
  split.
  { rewrite Hw, fmap_app, app_assoc. simpl.
    rewrite terminal_writes_snoc by (by apply is_terminal_shape).
    f_equal. unfold terminal_writes. rewrite List.filter_app.
    destruct Hb as [->| ->]; simpl; [apply app_nil_r|].
    unfold is_terminal. rewrite status_of_first. simpl. apply app_nil_r. }
  split; [exact Hshape'|].
  intros d Hd Hcode Herr.
  destruct (result_updates_frame job_id (before ++ [final])
              (generations_collection w) Hkeys) as (_ & _ & Hsame & _).
  rewrite Hc, Hsame, Hd. simpl. eexists. split; [reflexivity|].
  destruct Hshape as [[(c & e & t & [= ->]) _]|[(m & t & [= ->]) _]].
  - left. split; [by eexists _, _, _|].
    unfold success_record.
    destruct Hb as [->| ->]; simpl;
      (split; [fields|]); (split; [exists c; fields|]);
      (split; [exists e; fields|]); fields.
  - right. split; [by eexists _, _|].
    unfold failed_record.
    destruct Hb as [->| ->]; simpl;
      (split; [fields|]); (split; [exists m; fields|]); fields.
Qed.

Lemma one_terminal_write_witness :
  raises (failed_write Scenario.answering) = None ∧
  ¬ applied_then_raised (success_write Scenario.answering) ∧
  ∃ u w',
    process_generation Scenario.with_key "job-1" "a button" Scenario.answering
      (Scenario.submitted Scenario.fresh_breaker) = (Return tt, w') ∧
    terminal_writes (writes w') = [u] ∧
    (success_shape "job-1" u ∨ failed_shape "job-1" u) ∧
    ∃ d',
      find_one "job-1" (generations_collection w') = Some d' ∧
      ((success_shape "job-1" u ∧ success_record d') ∨
       (failed_shape "job-1" u ∧ failed_record d')).
Proof.
  assert (Hack : ¬ applied_then_raised (success_write Scenario.answering)).
  { intros [_ Happlied]. discriminate Happlied. }
  split; [reflexivity|]. split; [exact Hack|].
  destruct (one_terminal_write Scenario.with_key "job-1" "a button"
              Scenario.answering (Scenario.submitted Scenario.fresh_breaker)
              eq_refl Hack) as (u & w' & Hrun & Hterm & Hshape & Hrec).
  exists u, w'. split; [exact Hrun|]. split; [exact Hterm|].
  split; [exact Hshape|].
  apply (Hrec (generation_doc "job-1" "a button"
                 "2026-01-01T00:00:00+00:00" "2026-01-01T00:00:00+00:00"));
    reflexivity.
Defined.

(** C3, as stated, fails in two ways.  With the store down, the update of
    the exception handler raises as well: the exception leaves the task and
    no terminal write is made.  And when the store applies the success
    update and the awaited call raises all the same, the handler issues the
    failed write too: two terminal writes are applied, and the record ends
    as failed with the generated code set. *)
Lemma always_one_terminal_write_counterexample :
  let r := process_generation Scenario.with_key "job-1" "a button"
             Scenario.store_down (Scenario.submitted Scenario.fresh_breaker) in
  let r' := process_generation Scenario.with_key "job-1" "a button"
              Scenario.acknowledgement_lost
              (Scenario.submitted Scenario.fresh_breaker) in
  r.1 = Raise (OtherException "ServerSelectionTimeoutError"
                 "localhost:27017: connection refused") ∧
  terminal_writes (writes r.2) = [] ∧
  r'.1 = Return tt ∧
  status_of <$> terminal_writes (writes r'.2)
  = [Some (VStr "success"); Some (VStr "failed")] ∧
  (λ d, get_field d "status") <$> find_one "job-1" (generations_collection r'.2)
  = Some (VStr "failed") ∧
  (λ d, get_field d "generated_code")
    <$> find_one "job-1" (generations_collection r'.2)
  = Some (VStr "<button/>") ∧
  ¬ always_one_terminal_write.
Proof.
  repeat split; try reflexivity.
  intros H.
  destruct (H Scenario.with_key "job-1" "a button" Scenario.store_down
              (Scenario.submitted Scenario.fresh_breaker))
    as (u & w' & Hrun & _).
  assert (Hraised :
    (process_generation Scenario.with_key "job-1" "a button"
       Scenario.store_down (Scenario.submitted Scenario.fresh_breaker)).1
    = Raise (OtherException "ServerSelectionTimeoutError"
               "localhost:27017: connection refused"))
    by reflexivity.
  rewrite Hrun in Hraised. discriminate Hraised.
Qed.

End ServerSpec.

(* ===================================================================== *)
(** * Further properties of the circuit breaker *)
(* ===================================================================== *)

Module CircuitBreakerMore.
Import CircuitBreaker.

(** What the three methods keep true of the counters. *)
Lemma counters_step cb c :
  0 ≤ failure_count cb →
  (state cb = HALF_OPEN → 0 ≤ success_count cb ≤ 1) →
  (state cb ≠ HALF_OPEN → success_count cb = 0) →
  (1 ≤ failure_threshold cb → state cb = CLOSED →
   failure_count cb < failure_threshold cb) →
  let cb' := step cb c in
  0 ≤ failure_count cb' ∧
  (state cb' = HALF_OPEN → 0 ≤ success_count cb' ≤ 1) ∧
  (state cb' ≠ HALF_OPEN → success_count cb' = 0) ∧
  (1 ≤ failure_threshold cb' → state cb' = CLOSED →
   failure_count cb' < failure_threshold cb').
Proof.
  destruct cb as [nm th to fc lft st sc]. simpl.
  intros Hfc Hho Hnho Hcl.
  destruct c as [now| |now]; simpl;
    unfold can_execute, record_success, record_failure; simpl;
    destruct st; simpl;
    repeat match goal with
           | |- context [bool_decide ?P] => destruct (bool_decide_reflect P); simpl
           | |- context [if ?b then _ else _] => destruct b; simpl
           end;
    repeat split; intros; try congruence; try lia;
    try (specialize (Hho eq_refl); lia);
    try (apply Hnho; congruence);
    try (specialize (Hcl ltac:(assumption) eq_refl); lia).
Qed.

(** X1: a breaker built by [__init__] and driven through any sequence of
    [can_execute], [record_success] and [record_failure] calls has a
    failure count of at least 0, a success count of 0 outside the
    half-open state and of 0 or 1 inside it, and, when its threshold is at
    least 1, a failure count below the threshold whenever it is closed. *)
Theorem counters_invariant (env_threshold env_timeout : Z)
    (threshold timeout : option Z) (nm : string) (cs : list call) :
  let cb := run (init env_threshold env_timeout threshold timeout nm) cs in
  0 ≤ failure_count cb ∧
  (state cb = HALF_OPEN → 0 ≤ success_count cb ≤ 1) ∧
  (state cb ≠ HALF_OPEN → success_count cb = 0) ∧
  (1 ≤ failure_threshold cb → state cb = CLOSED →
   failure_count cb < failure_threshold cb).
Proof.
  induction cs as [|c cs IH] using rev_ind.
  - simpl. repeat split; intros; (congruence || lia).
  - intros cb. subst cb. rewrite CircuitBreakerSpec.run_app. simpl.
    destruct IH as (H1 & H2 & H3 & H4).
    by apply counters_step.
Qed.

(** X2: no call changes the name, the failure threshold or the timeout of
    a breaker. *)
Theorem configuration_is_fixed (cb : t) (cs : list call) :
  name (run cb cs) = name cb ∧
  failure_threshold (run cb cs) = failure_threshold cb ∧
  timeout_seconds (run cb cs) = timeout_seconds cb.
Proof.
  revert cb. induction cs as [|c cs IH]; intros cb; [done|].
  change (run cb (c :: cs)) with (run (step cb c) cs).
  destruct (IH (step cb c)) as (-> & -> & ->).
  destruct cb as [nm th to fc lft st sc].
  destruct c as [now| |now]; simpl;
    unfold can_execute, record_success, record_failure; simpl;
    destruct st; simpl;
    repeat match goal with
           | |- context [if ?b then _ else _] => destruct b; simpl
           end;
    done.
Qed.

(** X3: only consecutive failures open a closed breaker: a success between
    two runs of failures, each too short to reach the threshold, resets the
    count, and the breaker is closed at the end with the length of the
    second run as its failure count. *)
Theorem success_resets_failure_streak (cb : t) (before after : list Z) :
  state cb = CLOSED →
  failure_count cb + Z.of_nat (length before) < failure_threshold cb →
  Z.of_nat (length after) < failure_threshold cb →
  let cb' := run cb ((RecordFailure <$> before) ++ [RecordSuccess]
                       ++ (RecordFailure <$> after)) in
  state cb' = CLOSED ∧ failure_count cb' = Z.of_nat (length after).
Proof.
  intros Hst Hbefore Hafter cb'. subst cb'.
  rewrite !CircuitBreakerSpec.run_app.
  destruct (CircuitBreakerSpec.failures_below_threshold before cb Hst Hbefore)
    as (H1 & H2 & H3 & H4 & _).
  set (cb1 := run cb (RecordFailure <$> before)) in *.
  assert (Hreset : run cb1 [RecordSuccess] = set_failure_count 0 cb1).
  { simpl. unfold record_success. by rewrite H1. }
  rewrite Hreset.
  destruct (CircuitBreakerSpec.failures_below_threshold after
              (set_failure_count 0 cb1)) as (H5 & H6 & _).
  - exact H1.
  - simpl. lia.
  - split; [exact H5|]. rewrite H6. simpl. lia.
Qed.

Lemma success_resets_failure_streak_witness :
  let cb := init 5 60 None None "llm_service" in
  let cb' := run cb ((RecordFailure <$> [1000; 1001; 1002; 1003])
                       ++ [RecordSuccess]
                       ++ (RecordFailure <$> [1004; 1005; 1006; 1007])) in
  state cb' = CLOSED ∧ failure_count cb' = 4.
Proof.
  apply (success_resets_failure_streak (init 5 60 None None "llm_service")
           [1000; 1001; 1002; 1003] [1004; 1005; 1006; 1007]).
  - reflexivity.
  - simpl. lia.
  - simpl. lia.
Defined.

(** X4: once [can_execute] has returned true, it returns true again, at any
    later reading of the clock, and changes nothing, as long as no other
    method is called: the half-open state admits every request. *)
Theorem admitted_stays_admitted (cb : t) (now now' : Z) :
  (can_execute now cb).1 = true →
  can_execute now' (can_execute now cb).2 = (true, (can_execute now cb).2).
Proof.
  unfold can_execute.
  destruct (state cb) eqn:Hst; simpl.
  - intros _. by rewrite Hst.
  - destruct (timeout_passed now cb); simpl; [done | discriminate].
  - intros _. by rewrite Hst.
Qed.

Lemma admitted_stays_admitted_witness :
  let cb := Scenario.tripped_breaker in
  (can_execute 2059 cb).1 = true ∧
  can_execute 2060 (can_execute 2059 cb).2 = (true, (can_execute 2059 cb).2) ∧
  can_execute 2061 (can_execute 2059 cb).2 = (true, (can_execute 2059 cb).2).
Proof.
  split; [reflexivity|].
  split; apply (admitted_stays_admitted Scenario.tripped_breaker); reflexivity.
Defined.

(** X5: a failure recorded while the breaker is open or half-open leaves it
    open, with that failure as the last one: the timeout starts again, and
    [can_execute] is false until [timeout_seconds] have elapsed since the
    new failure. *)
Theorem failure_restarts_timeout (cb : t) (now : Z) :
  state cb ≠ CLOSED →
  let cb' := record_failure now cb in
  state cb' = OPEN ∧
  last_failure_time cb' = Some now ∧
  failure_count cb' = failure_count cb + 1 ∧
  ∀ t, t - now < timeout_seconds cb → can_execute t cb' = (false, cb').
Proof.
  intros Hst cb'.
  assert (Hcb' : state cb' = OPEN ∧ last_failure_time cb' = Some now ∧
                 failure_count cb' = failure_count cb + 1 ∧
                 timeout_seconds cb' = timeout_seconds cb).
  { subst cb'. unfold record_failure. simpl.
    destruct (state cb) eqn:Hs; [done| |]; simpl;
      try destruct (bool_decide _); simpl; rewrite ?Hs; done. }
  destruct Hcb' as (Hopen & Hlast & Hcount & Hto).
  repeat split; try done.
  intros t Ht. unfold can_execute, timeout_passed.
  rewrite Hopen, Hlast, Hto.
  rewrite (bool_decide_eq_false_2 (timeout_seconds cb ≤ t - now)) by lia.
  by rewrite andb_false_r.
Qed.

Lemma failure_restarts_timeout_witness :
  let cb := Scenario.tripped_breaker in
  let cb' := record_failure 2050 cb in
  state cb' = OPEN ∧
  last_failure_time cb' = Some 2050 ∧
  failure_count cb' = 6 ∧
  ∀ t, t - 2050 < 60 → can_execute t cb' = (false, cb').
Proof.
  apply (failure_restarts_timeout Scenario.tripped_breaker 2050).
  discriminate.
Defined.

End CircuitBreakerMore.

(* ===================================================================== *)
(** * Further properties of the rate limiter *)
(* ===================================================================== *)

Module RateLimiterMore.
Import RateLimiter.

Lemma timestamps_set_other identifier other l rl :
  other ≠ identifier →
  timestamps (set_timestamps identifier l rl) other = timestamps rl other.
Proof.
  intros Hne. unfold timestamps, set_timestamps. simpl.
  by rewrite lookup_insert_ne.
Qed.

(** X6: a check for one identifier changes neither the timestamps stored
    for any other identifier nor the configured default limit. *)
Theorem check_leaves_others_alone (rl : t) (identifier other : string)
    (max_requests : option Z) (window_seconds current_time now : Z) :
  other ≠ identifier →
  let rl' := (check_rate_limit current_time now rl identifier max_requests
                window_seconds).2 in
  timestamps rl' other = timestamps rl other ∧
  max_requests_per_minute rl' = max_requests_per_minute rl.
Proof.
  intros Hne. unfold check_rate_limit, _clean_old_requests.
  destruct (bool_decide _); simpl; by rewrite !timestamps_set_other.
Qed.

Lemma check_leaves_others_alone_witness :
  let rl := (check_rate_limit 1000 1000 (init 10) "10.0.0.1" None 60).2 in
  let rl' := (check_rate_limit 1001 1001 rl "10.0.0.2" None 60).2 in
  timestamps rl' "10.0.0.1" = timestamps rl "10.0.0.1" ∧
  max_requests_per_minute rl' = max_requests_per_minute rl.
Proof.
  apply (check_leaves_others_alone
           (check_rate_limit 1000 1000 (init 10) "10.0.0.1" None 60).2
           "10.0.0.2" "10.0.0.1" None 60 1001 1001).
  discriminate.
Defined.

(** X7: the remaining count that a check returns is never negative, and is
    below the limit in force when the request is admitted; and after the
    check the identifier has no more timestamps stored than before, or no
    more than the limit. *)
Theorem remaining_and_stored_bounds (rl : t) (identifier : string)
    (max_requests : option Z) (window_seconds current_time now : Z) :
  let limit := py_or max_requests (max_requests_per_minute rl) in
  let r := check_rate_limit current_time now rl identifier max_requests
             window_seconds in
  0 ≤ r.1.2 ∧
  (r.1.1 = true → r.1.2 < limit) ∧
  (r.1.1 = false → r.1.2 = 0) ∧
  Z.of_nat (length (timestamps r.2 identifier))
    ≤ Z.max (Z.of_nat (length (timestamps rl identifier))) limit.
Proof.
  intros limit r. subst limit r.
  unfold check_rate_limit, _clean_old_requests.
  rewrite RateLimiterSpec.timestamps_set.
  pose proof (length_filter (λ ts, now - window_seconds < ts)
                (timestamps rl identifier)) as Hlen.
  destruct (bool_decide_reflect
              (py_or max_requests (max_requests_per_minute rl)
               ≤ Z.of_nat (length (filter (λ ts, now - window_seconds < ts)
                                     (timestamps rl identifier)))));
    simpl; rewrite RateLimiterSpec.timestamps_set.
  - repeat split; try done; lia.
  - rewrite length_app. simpl. repeat split; try done; lia.
Qed.

(** X8: when the timestamps stored for an identifier are in non-decreasing
    order and none is later than the reading taken at the start of the
    call, they are in non-decreasing order after the call as well. *)
Theorem timestamps_stay_sorted (rl : t) (identifier : string)
    (max_requests : option Z) (window_seconds current_time now : Z) :
  StronglySorted Z.le (timestamps rl identifier) →
  Forall (λ ts, ts ≤ current_time) (timestamps rl identifier) →
  StronglySorted Z.le
    (timestamps (check_rate_limit current_time now rl identifier max_requests
                   window_seconds).2 identifier).
Proof.
  intros Hsorted Hpast.
  assert (Hsub : filter (λ ts, now - window_seconds < ts)
                   (timestamps rl identifier)
                 `sublist_of` timestamps rl identifier)
    by apply sublist_filter.
  assert (Hfs : StronglySorted Z.le
                  (filter (λ ts, now - window_seconds < ts)
                     (timestamps rl identifier))).
  { clear Hpast Hsub. induction Hsorted as [|x l Hl IH Hx]; [constructor|].
    destruct (decide (now - window_seconds < x)).
    - rewrite filter_cons_True by done. constructor; [done|].
      apply Forall_forall. intros y Hy.
      apply list_elem_of_filter in Hy as [_ Hy].
      rewrite Forall_forall in Hx. by apply Hx.
    - by rewrite filter_cons_False. }
  unfold check_rate_limit, _clean_old_requests.
  rewrite RateLimiterSpec.timestamps_set.
  destruct (bool_decide _); simpl; rewrite RateLimiterSpec.timestamps_set;
    [done|].
  apply StronglySorted_app. split; [|split; [done | repeat constructor]].
  intros x y Hx Hy. apply list_elem_of_singleton in Hy as ->.
  apply list_elem_of_filter in Hx as [_ Hx].
  rewrite Forall_forall in Hpast. by apply Hpast.
Qed.

Lemma timestamps_stay_sorted_witness :
  let rl := (check_many [(0, 0); (1, 1); (1, 2)] (init 10) "127.0.0.1" None 60).2 in
  timestamps rl "127.0.0.1" = [0; 1; 1] ∧
  StronglySorted Z.le
    (timestamps (check_rate_limit 61 61 rl "127.0.0.1" None 60).2 "127.0.0.1").
Proof.
  intros rl.
  assert (Hts : timestamps rl "127.0.0.1" = [0; 1; 1]) by (vm_compute; reflexivity).
  split; [exact Hts|].
  apply (timestamps_stay_sorted rl "127.0.0.1" None 60 61 61); rewrite Hts.
  - repeat constructor; lia.
  - repeat constructor; lia.
Defined.

(** X9: under a limit in force of 0 or less (a negative argument, or a
    default of 0 or less reached by omitting the argument or passing 0)
    every request is rejected with 0 remaining, and nothing is recorded. *)
Theorem nonpositive_limit_rejects (rl : t) (identifier : string)
    (max_requests : option Z) (window_seconds current_time now : Z) :
  py_or max_requests (max_requests_per_minute rl) ≤ 0 →
  check_rate_limit current_time now rl identifier max_requests window_seconds
  = ((false, 0), _clean_old_requests now rl identifier window_seconds).
Proof.
  intros Hlimit. unfold check_rate_limit.
  rewrite bool_decide_eq_true_2; [done|]. lia.
Qed.

Lemma nonpositive_limit_rejects_witness :
  check_rate_limit 1000 1000 (init 0) "127.0.0.1" (Some 0) 60
  = ((false, 0), _clean_old_requests 1000 (init 0) "127.0.0.1" 60) ∧
  check_rate_limit 1000 1000 (init 10) "127.0.0.1" (Some (-1)) 60
  = ((false, 0), _clean_old_requests 1000 (init 10) "127.0.0.1" 60).
Proof.
  split.
  - apply (nonpositive_limit_rejects (init 0) "127.0.0.1" (Some 0) 60 1000 1000).
    simpl. lia.
  - apply (nonpositive_limit_rejects (init 10) "127.0.0.1" (Some (-1)) 60 1000 1000).
    simpl. lia.
Defined.

(** X10: the window slides: when the stored timestamps are expired ones
    followed by ones still in the window, and fewer of the latter than the
    limit, the request is admitted, the expired timestamps are dropped, and
    the remaining count is the limit less the timestamps in the window,
    the new one included. *)
Theorem expired_timestamps_free_quota (rl : t) (identifier : string)
    (max_requests window_seconds current_time now : Z) (expired live : list Z) :
  max_requests ≠ 0 →
  timestamps rl identifier = expired ++ live →
  Forall (λ ts, ts ≤ now - window_seconds) expired →
  Forall (λ ts, now - window_seconds < ts) live →
  Z.of_nat (length live) < max_requests →
  let r := check_rate_limit current_time now rl identifier (Some max_requests)
             window_seconds in
  r.1 = (true, max_requests - Z.of_nat (length live) - 1) ∧
  timestamps r.2 identifier = live ++ [current_time].
Proof.
  intros Hne Hts Hexp Hlive Hlt r. subst r.
  unfold check_rate_limit, _clean_old_requests, py_or.
  rewrite decide_False by done.
  rewrite Hts, filter_app.
  rewrite RateLimiterSpec.filter_none
    by (eapply Forall_impl; [exact Hexp | simpl; intros; lia]).
  rewrite RateLimiterSpec.filter_all by done. simpl.
  rewrite RateLimiterSpec.timestamps_set.
  rewrite bool_decide_eq_false_2 by lia. simpl.
  by rewrite RateLimiterSpec.timestamps_set.
Qed.

Lemma expired_timestamps_free_quota_witness :
  let rl := (check_many [(0, 0); (30, 30); (40, 40)] (init 10) "127.0.0.1"
               (Some 3) 60).2 in
  (check_rate_limit 59 59 rl "127.0.0.1" (Some 3) 60).1 = (false, 0) ∧
  (check_rate_limit 60 60 rl "127.0.0.1" (Some 3) 60).1 = (true, 0) ∧
  timestamps (check_rate_limit 60 60 rl "127.0.0.1" (Some 3) 60).2 "127.0.0.1"
  = [30; 40; 60].
Proof.
  intros rl. split; [reflexivity|].
  apply (expired_timestamps_free_quota rl "127.0.0.1" 3 60 60 60 [0] [30; 40]).
  - discriminate.
  - vm_compute. reflexivity.
  - repeat constructor. lia.
  - repeat constructor; lia.
  - simpl. lia.
Defined.

(** X11: the outbound check of a service is keyed by ["outbound:"] followed
    by the service name, allows a call exactly when fewer than 5 calls are
    stored for that key from the last second, and changes the timestamps of
    no other identifier. *)
Theorem outbound_limit_is_five_per_second (rl : t) (service other : string)
    (current_time now : Z) :
  let key := "outbound:" +:+ service in
  let r := check_outbound_rate_limit current_time now rl service in
  r.1 = bool_decide
          (Z.of_nat (length (filter (λ ts, now - 1 < ts) (timestamps rl key))) < 5) ∧
  (r.1 = true →
   timestamps r.2 key
   = filter (λ ts, now - 1 < ts) (timestamps rl key) ++ [current_time]) ∧
  (r.1 = false →
   timestamps r.2 key = filter (λ ts, now - 1 < ts) (timestamps rl key)) ∧
  (other ≠ key → timestamps r.2 other = timestamps rl other).
Proof.
  intros key r. subst r.
  unfold check_outbound_rate_limit, check_rate_limit, _clean_old_requests.
  fold key. simpl py_or.
  rewrite RateLimiterSpec.timestamps_set.
  set (live := filter (λ ts, now - 1 < ts) (timestamps rl key)).
  destruct (bool_decide_reflect (5 ≤ Z.of_nat (length live))); simpl.
  - rewrite bool_decide_eq_false_2 by lia.
    rewrite RateLimiterSpec.timestamps_set.
    repeat split; try done. intros Hne. by rewrite !timestamps_set_other.
  - rewrite bool_decide_eq_true_2 by lia.
    rewrite RateLimiterSpec.timestamps_set.
    repeat split; try done. intros Hne. by rewrite !timestamps_set_other.
Qed.

End RateLimiterMore.

(* ===================================================================== *)
(** * Further properties of the generation call *)
(* ===================================================================== *)

Module LLMServiceMore.
Import Py Runtime LLMService.

Ltac unfold_body :=
  unfold generate_ui_code_body, try_except, enter, can_execute, create,
    record_success, record_failure, first_content_stripped, modify, raise, ret;
  unfold bind; simpl.

(** What one attempt does to the counters, whatever it meets. *)
Lemma body_counters self prompt request_id env w :
  let r := generate_ui_code_body self prompt request_id env w in
  attempts_made r.2 = S (attempts_made w) ∧
  sleeps r.2 = sleeps w ∧
  (api_calls w ≤ api_calls r.2 ≤ S (api_calls w))%nat ∧
  (∀ e, r.1 = Raise e → is_LLMServiceError e = true) ∧
  (∀ v, r.1 = Return v → api_calls r.2 = S (api_calls w)).
Proof.
  unfold_body.
  repeat (case_match; simpl in *; simplify_eq);
    repeat split; intros; simpl in *; simplify_eq; simpl; try done; lia.
Qed.

(** X12: a call of [generate_ui_code] makes one, two or three attempts and
    sleeps once between two attempts, for the backoff of the attempt just
    made; it calls the API at most once per attempt; when it raises, the
    error is an [LLMServiceError] and all three attempts have been made;
    when it returns, its last attempt has called the API. *)
Theorem attempts_and_backoff (self : t) (prompt request_id : string)
    (env : Env) (w : World) :
  let r := generate_ui_code self prompt request_id env w in
  ∃ k : nat,
    (1 ≤ k ≤ 3)%nat ∧
    attempts_made r.2 = (attempts_made w + k)%nat ∧
    sleeps r.2
    = sleeps w ++ take (k - 1) [wait_exponential 1 1 10 1; wait_exponential 1 1 10 2] ∧
    (api_calls w ≤ api_calls r.2 ≤ api_calls w + k)%nat ∧
    (∀ e, r.1 = Raise e → is_LLMServiceError e = true ∧ k = 3%nat) ∧
    (∀ v, r.1 = Return v → (api_calls w < api_calls r.2)%nat).
Proof.
  intros r. subst r.
  unfold generate_ui_code, retry. simpl Nat.sub.
  pose proof (body_counters self prompt request_id env w) as H1.
  destruct (generate_ui_code_body self prompt request_id env w)
    as [[v1|e1] w1] eqn:Hb1; simpl in H1;
    destruct H1 as (Ha1 & Hs1 & Hc1 & He1 & Hv1).
  { exists 1%nat. simpl. unfold try_except. rewrite Hb1. simpl.
    specialize (Hv1 v1 eq_refl).
    repeat split; try lia; try done.
    by rewrite Hs1, app_nil_r. }
  rewrite (LLMServiceSpec.retry_from_retriable _ _ _ _ _ _ _ Hb1 (He1 e1 eq_refl)).
  set (s1 := set_sleeps _ w1).
  pose proof (body_counters self prompt request_id env s1) as H2.
  destruct (generate_ui_code_body self prompt request_id env s1)
    as [[v2|e2] w2] eqn:Hb2; simpl in H2;
    destruct H2 as (Ha2 & Hs2 & Hc2 & He2 & Hv2).
  { exists 2%nat. simpl. unfold try_except. rewrite Hb2. simpl.
    specialize (Hv2 v2 eq_refl). subst s1. simpl in *.
    repeat split; try lia; try done.
    by rewrite Hs2, Hs1. }
  rewrite (LLMServiceSpec.retry_from_retriable _ _ _ _ _ _ _ Hb2 (He2 e2 eq_refl)).
  set (s2 := set_sleeps _ w2).
  pose proof (body_counters self prompt request_id env s2) as H3.
  simpl retry_from.
  destruct (generate_ui_code_body self prompt request_id env s2)
    as [[v3|e3] w3] eqn:Hb3; simpl in H3;
    destruct H3 as (Ha3 & Hs3 & Hc3 & He3 & Hv3);
    exists 3%nat; subst s1 s2; simpl in *.
  - specialize (Hv3 v3 eq_refl).
    repeat split; try lia; try done.
    by rewrite Hs3, Hs2, Hs1, <- app_assoc.
  - repeat split; try lia; try done; eauto.
    by rewrite Hs3, Hs2, Hs1, <- app_assoc.
Qed.

(** X13: when the breaker admits the first attempt, a client is configured
    and the API returns a first choice with a content, the call returns
    after that one attempt, without a backoff wait: the code is the content
    stripped, freed of its code fence and stripped again, the explanation
    repeats the prompt, and the breaker has recorded one success. *)
Theorem first_attempt_succeeds (self : t) (prompt request_id : string)
    (env : Env) (w : World) (content : string) (rest : list (option string)) :
  has_client self = true →
  admits_next env w = true →
  api (attempts env (attempts_made w)) = ApiReturns (Some content :: rest) →
  let r := generate_ui_code self prompt request_id env w in
  r.1 = Return {| code := strip (unfence (strip content));
                  explanation := "Generated React component based on: " +:+ prompt |} ∧
  llm_circuit_breaker r.2
  = CircuitBreaker.record_success
      (CircuitBreaker.can_execute (t_check (attempts env (attempts_made w)))
         (llm_circuit_breaker w)).2 ∧
  attempts_made r.2 = S (attempts_made w) ∧
  api_calls r.2 = S (api_calls w) ∧
  sleeps r.2 = sleeps w.
Proof.
  intros Hclient Hadm Hapi r. subst r. unfold admits_next in Hadm.
  unfold generate_ui_code, retry. simpl. unfold try_except at 1.
  unfold_body.
  destruct (CircuitBreaker.can_execute _ _) as [ok cb] eqn:Hcan.
  simpl in Hadm. subst ok. simpl.
  rewrite Hclient, Hapi. simpl. done.
Qed.

Lemma first_attempt_succeeds_witness :
  let r := generate_ui_code Scenario.with_key "a button" "job-1"
             Scenario.answering (Scenario.submitted Scenario.fresh_breaker) in
  r.1 = Return {| code := "<button/>";
                  explanation := "Generated React component based on: a button" |} ∧
  attempts_made r.2 = 1%nat ∧
  api_calls r.2 = 1%nat ∧
  sleeps r.2 = [].
Proof.
  destruct (first_attempt_succeeds Scenario.with_key "a button" "job-1"
              Scenario.answering (Scenario.submitted Scenario.fresh_breaker)
              (join_nl ["```jsx"; "<button/>"; "```"]) [])
    as (Hr & _ & Ha & Hc & Hs); try reflexivity.
  repeat split; assumption.
Defined.

(** One attempt, on a closed breaker, that gets a response without a
    usable first choice: the success is recorded before the content is
    read, then the failure. *)
Lemma malformed_attempt self prompt request_id env w :
  has_client self = true →
  CircuitBreaker.state (llm_circuit_breaker w) = CircuitBreaker.CLOSED →
  2 ≤ CircuitBreaker.failure_threshold (llm_circuit_breaker w) →
  (api (attempts env (attempts_made w)) = ApiReturns [] ∨
   ∃ rest, api (attempts env (attempts_made w)) = ApiReturns (None :: rest)) →
  ∃ e w1,
    generate_ui_code_body self prompt request_id env w = (Raise e, w1) ∧
    is_LLMServiceError e = true ∧
    CircuitBreaker.state (llm_circuit_breaker w1) = CircuitBreaker.CLOSED ∧
    CircuitBreaker.failure_count (llm_circuit_breaker w1) = 1 ∧
    CircuitBreaker.failure_threshold (llm_circuit_breaker w1)
    = CircuitBreaker.failure_threshold (llm_circuit_breaker w) ∧
    attempts_made w1 = S (attempts_made w) ∧
    api_calls w1 = S (api_calls w) ∧
    sleeps w1 = sleeps w.
Proof.
  intros Hclient Hst Hth Hapi.
  unfold_body. unfold CircuitBreaker.can_execute. rewrite Hst. simpl.
  rewrite Hclient. simpl.
  assert (Hfail : ∀ now,
    let cb := CircuitBreaker.record_failure now
                (CircuitBreaker.record_success (llm_circuit_breaker w)) in
    CircuitBreaker.state cb = CircuitBreaker.CLOSED ∧
    CircuitBreaker.failure_count cb = 1 ∧
    CircuitBreaker.failure_threshold cb
    = CircuitBreaker.failure_threshold (llm_circuit_breaker w)).
  { intros now. unfold CircuitBreaker.record_success. rewrite Hst.
    unfold CircuitBreaker.record_failure. simpl. rewrite Hst.
    rewrite bool_decide_eq_false_2 by lia. simpl. by rewrite Hst. }
  destruct Hapi as [Hapi|[rest Hapi]]; rewrite Hapi; simpl;
    eexists _, _; (split; [reflexivity|]); simpl;
    destruct (Hfail (t_fail (attempts env (attempts_made w)))) as (? & ? & ?);
    by repeat split.
Qed.

(** X14: a response with no choice, or with a first choice without content,
    is counted as a success and then as a failure.  So on a closed breaker
    with a threshold of at least 2 a call whose three attempts all get such
    a response calls the API three times, raises, and leaves the breaker
    closed with a failure count of 1: such responses never open it. *)
Theorem malformed_responses_never_open (self : t) (prompt request_id : string)
    (env : Env) (w : World) :
  has_client self = true →
  CircuitBreaker.state (llm_circuit_breaker w) = CircuitBreaker.CLOSED →
  2 ≤ CircuitBreaker.failure_threshold (llm_circuit_breaker w) →
  (∀ k, (k < 3)%nat →
     api (attempts env (attempts_made w + k)) = ApiReturns [] ∨
     ∃ rest, api (attempts env (attempts_made w + k)) = ApiReturns (None :: rest)) →
  let r := generate_ui_code self prompt request_id env w in
  (∃ e, r.1 = Raise e) ∧
  CircuitBreaker.state (llm_circuit_breaker r.2) = CircuitBreaker.CLOSED ∧
  CircuitBreaker.failure_count (llm_circuit_breaker r.2) = 1 ∧
  api_calls r.2 = (api_calls w + 3)%nat.
Proof.
  intros Hclient Hst Hth Hapi r. subst r.
  unfold generate_ui_code, retry. simpl Nat.sub.
  destruct (malformed_attempt self prompt request_id env w Hclient Hst Hth)
    as (e1 & w1 & Hb1 & He1 & Hst1 & _ & Hth1 & Ha1 & Hc1 & _).
  { specialize (Hapi 0%nat ltac:(lia)). by rewrite Nat.add_0_r in Hapi. }
  rewrite (LLMServiceSpec.retry_from_retriable _ _ _ _ _ _ _ Hb1 He1).
  set (s1 := set_sleeps _ w1).
  destruct (malformed_attempt self prompt request_id env s1 Hclient Hst1)
    as (e2 & w2 & Hb2 & He2 & Hst2 & _ & Hth2 & Ha2 & Hc2 & _).
  { simpl. lia. }
  { simpl. rewrite Ha1. specialize (Hapi 1%nat ltac:(lia)).
    by rewrite Nat.add_1_r in Hapi. }
  rewrite (LLMServiceSpec.retry_from_retriable _ _ _ _ _ _ _ Hb2 He2).
  set (s2 := set_sleeps _ w2).
  destruct (malformed_attempt self prompt request_id env s2 Hclient Hst2)
    as (e3 & w3 & Hb3 & He3 & Hst3 & Hfc3 & _ & Ha3 & Hc3 & _).
  { simpl in *. lia. }
  { simpl in *. rewrite Ha2, Ha1. specialize (Hapi 2%nat ltac:(lia)).
    by replace (attempts_made w + 2)%nat with (S (S (attempts_made w)))
      in Hapi by lia. }
  simpl retry_from. rewrite Hb3. simpl in *.
  repeat split; try done; [by eexists | lia].
Qed.

Lemma malformed_responses_never_open_witness :
  let env :=
    {| attempts := λ n, {| t_check := 2000; api := ApiReturns []; t_fail := 2001 |};
       running_write := running_write Scenario.answering;
       success_write := success_write Scenario.answering;
       failed_write := failed_write Scenario.answering |} in
  let r := generate_ui_code Scenario.with_key "a button" "job-1" env
             (Scenario.submitted Scenario.fresh_breaker) in
  (∃ e, r.1 = Raise e) ∧
  CircuitBreaker.state (llm_circuit_breaker r.2) = CircuitBreaker.CLOSED ∧
  CircuitBreaker.failure_count (llm_circuit_breaker r.2) = 1 ∧
  api_calls r.2 = 3%nat.
Proof.
  apply (malformed_responses_never_open Scenario.with_key "a button" "job-1"
           {| attempts := λ n, {| t_check := 2000; api := ApiReturns []; t_fail := 2001 |};
              running_write := running_write Scenario.answering;
              success_write := success_write Scenario.answering;
              failed_write := failed_write Scenario.answering |}
           (Scenario.submitted Scenario.fresh_breaker)).
  - reflexivity.
  - reflexivity.
  - simpl. lia.
  - intros k _. by left.
Defined.

(** X15: when the first attempt of a call finds the breaker closed, one
    failure short of its threshold, and the API raises, that failure opens
    the breaker; the two attempts that follow before the timeout has
    elapsed are rejected without a call of the API, and the call ends with
    the breaker-open error. *)
Theorem breaker_opens_during_retries (self : t) (prompt request_id : string)
    (env : Env) (w : World) (e0 : exn) :
  let cb := llm_circuit_breaker w in
  let n := attempts_made w in
  let failed_at := t_fail (attempts env n) in
  has_client self = true →
  CircuitBreaker.state cb = CircuitBreaker.CLOSED →
  CircuitBreaker.failure_count cb + 1 = CircuitBreaker.failure_threshold cb →
  api (attempts env n) = ApiRaises e0 →
  t_check (attempts env (S n)) - failed_at < CircuitBreaker.timeout_seconds cb →
  t_check (attempts env (S (S n))) - failed_at < CircuitBreaker.timeout_seconds cb →
  let r := generate_ui_code self prompt request_id env w in
  r.1 = Raise (CircuitBreakerOpenError breaker_open_message) ∧
  CircuitBreaker.state (llm_circuit_breaker r.2) = CircuitBreaker.OPEN ∧
  CircuitBreaker.last_failure_time (llm_circuit_breaker r.2) = Some failed_at ∧
  attempts_made r.2 = (n + 3)%nat ∧
  api_calls r.2 = S (api_calls w).
Proof.
  intros cb n failed_at Hclient Hst Hcount Hapi Hsoon1 Hsoon2 r.
  subst r cb n failed_at.
  set (opened :=
    CircuitBreaker.mk (CircuitBreaker.name (llm_circuit_breaker w))
      (CircuitBreaker.failure_threshold (llm_circuit_breaker w))
      (CircuitBreaker.timeout_seconds (llm_circuit_breaker w))
      (CircuitBreaker.failure_threshold (llm_circuit_breaker w))
      (Some (t_fail (attempts env (attempts_made w)))) CircuitBreaker.OPEN 0).
  assert (Hb1 :
    generate_ui_code_body self prompt request_id env w
    = (Raise (LLMServiceError ("Failed to generate UI code: " +:+ str e0)),
       set_breaker opened
         (set_api_calls (S (api_calls w))
            (set_attempts_made (S (attempts_made w)) w)))).
  { unfold_body. unfold CircuitBreaker.can_execute. rewrite Hst. simpl.
    rewrite Hclient, Hapi. simpl.
    by rewrite CircuitBreakerSpec.failure_at_threshold. }
  assert (Hrej : ∀ t,
    t - t_fail (attempts env (attempts_made w))
      < CircuitBreaker.timeout_seconds (llm_circuit_breaker w) →
    (CircuitBreaker.can_execute t opened).1 = false).
  { intros t Ht. unfold CircuitBreaker.can_execute, CircuitBreaker.timeout_passed.
    simpl. rewrite (bool_decide_eq_false_2 (_ ≤ _)) by lia.
    by rewrite andb_false_r. }
  unfold generate_ui_code, retry. simpl Nat.sub.
  rewrite (LLMServiceSpec.retry_from_retriable _ _ _ _ _ _ _ Hb1 eq_refl).
  set (s1 := set_sleeps _ _).
  assert (Hb2 : generate_ui_code_body self prompt request_id env s1
            = (Raise (CircuitBreakerOpenError breaker_open_message),
               set_attempts_made (S (attempts_made s1)) s1)).
  { apply LLMServiceSpec.body_rejected. unfold admits_next. simpl.
    by apply Hrej. }
  rewrite (LLMServiceSpec.retry_from_retriable _ _ _ _ _ _ _ Hb2 eq_refl).
  simpl retry_from.
  rewrite LLMServiceSpec.body_rejected.
  - simpl. repeat split; try done. lia.
  - unfold admits_next. simpl. by apply Hrej.
Qed.

Lemma breaker_opens_during_retries_witness :
  let env :=
    {| attempts := λ n,
         {| t_check := 2000 + Z.of_nat n;
            api := ApiRaises (OtherException "APITimeoutError" "Request timed out.");
            t_fail := 2000 + Z.of_nat n |};
       running_write := running_write Scenario.answering;
       success_write := success_write Scenario.answering;
       failed_write := failed_write Scenario.answering |} in
  let cb := CircuitBreaker.run Scenario.fresh_breaker
              (CircuitBreaker.RecordFailure <$> [1990; 1991; 1992; 1993]) in
  let r := generate_ui_code Scenario.with_key "a button" "job-1" env
             (Scenario.submitted cb) in
  r.1 = Raise (CircuitBreakerOpenError breaker_open_message) ∧
  CircuitBreaker.state (llm_circuit_breaker r.2) = CircuitBreaker.OPEN ∧
  CircuitBreaker.last_failure_time (llm_circuit_breaker r.2) = Some 2000 ∧
  attempts_made r.2 = 3%nat ∧
  api_calls r.2 = 1%nat.
Proof.
  apply (breaker_opens_during_retries Scenario.with_key "a button" "job-1"
           {| attempts := λ n,
                {| t_check := 2000 + Z.of_nat n;
                   api := ApiRaises (OtherException "APITimeoutError" "Request timed out.");
                   t_fail := 2000 + Z.of_nat n |};
              running_write := running_write Scenario.answering;
              success_write := success_write Scenario.answering;
              failed_write := failed_write Scenario.answering |}
           (Scenario.submitted
              (CircuitBreaker.run Scenario.fresh_breaker
                 (CircuitBreaker.RecordFailure <$> [1990; 1991; 1992; 1993])))
           (OtherException "APITimeoutError" "Request timed out."));
    try reflexivity; simpl; lia.
Defined.

End LLMServiceMore.

(* ===================================================================== *)
(** * Properties of the string operations *)
(* ===================================================================== *)

Module PyMore.
Import Py.

Lemma append_cons a (s t : string) : String a s +:+ t = String a (s +:+ t).
Proof. reflexivity. Qed.

Lemma append_nil_l (s : string) : "" +:+ s = s.
Proof. reflexivity. Qed.

Lemma append_nil_r (s : string) : s +:+ "" = s.
Proof. induction s as [|a s IH]; [done|]. by rewrite append_cons, IH. Qed.

Lemma append_assoc (s1 s2 s3 : string) :
  (s1 +:+ s2) +:+ s3 = s1 +:+ (s2 +:+ s3).
Proof.
  induction s1 as [|a s1 IH]; [done|]. by rewrite !append_cons, IH.
Qed.

Lemma concat_cons sep (x y : string) (l : list string) :
  String.concat sep (x :: y :: l) = x +:+ sep +:+ String.concat sep (y :: l).
Proof. reflexivity. Qed.

Lemma split_nl_not_nil s : split_nl s ≠ [].
Proof.
  destruct s as [|c s]; simpl; [done|].
  destruct (decide (c = nl)); [done|]. by destruct (split_nl s).
Qed.

(** Joining the lines of a text with newlines gives the text back. *)
Lemma join_split_nl (s : string) : join_nl (split_nl s) = s.
Proof.
  unfold join_nl.
  induction s as [|c s IH]; [done|]. simpl split_nl.
  pose proof (split_nl_not_nil s) as Hne.
  destruct (split_nl s) as [|h t] eqn:Hs; [done|].
  destruct (decide (c = nl)) as [->|Hc].
  - rewrite concat_cons, IH. reflexivity.
  - destruct t as [|x xs].
    + simpl in *. by rewrite IH.
    + rewrite concat_cons in *. by rewrite append_cons, IH.
Qed.

Lemma split_nl_one_line s :
  nl ∉ String.list_ascii_of_string s → split_nl s = [s].
Proof.
  induction s as [|c s IH]; simpl; [done|].
  intros Hnot. apply not_elem_of_cons in Hnot as [Hc Hs].
  rewrite decide_False by done. by rewrite IH.
Qed.

Lemma split_nl_append x y :
  split_nl (x +:+ String nl y) = split_nl x ++ split_nl y.
Proof.
  induction x as [|c x IH].
  - rewrite append_nil_l. simpl. done.
  - rewrite append_cons. simpl. rewrite IH.
    destruct (decide (c = nl)); [done|].
    pose proof (split_nl_not_nil x).
    by destruct (split_nl x).
Qed.

(** Splitting a text joined from lines that contain no newline gives the
    lines back, provided there is at least one line. *)
Lemma split_join_nl (lines : list string) :
  lines ≠ [] →
  Forall (λ l, nl ∉ String.list_ascii_of_string l) lines →
  split_nl (join_nl lines) = lines.
Proof.
  unfold join_nl. intros Hne Hlines.
  induction Hlines as [|l lines Hl Hrest IH]; [done|].
  destruct lines as [|l' lines].
  - simpl. by apply split_nl_one_line.
  - rewrite concat_cons, append_cons, append_nil_l.
    rewrite split_nl_append, IH by done.
    by rewrite split_nl_one_line.
Qed.

Lemma prefix_append p s : String.prefix p (p +:+ s) = true.
Proof.
  induction p as [|a p IH]; [by destruct s|].
  rewrite append_cons. simpl.
  destruct (Ascii.ascii_dec a a); [exact IH | done].
Qed.

(** X16: a text that opens with a fence line (three backquotes and a
    language tag, without a newline) and closes with a line of three
    backquotes loses exactly these two lines. *)
Theorem unfence_removes_fence (lang body : string) :
  nl ∉ String.list_ascii_of_string lang →
  LLMService.unfence ("```" +:+ lang +:+ String nl (body +:+ String nl "```"))
  = body.
Proof.
  intros Hlang. unfold LLMService.unfence, startswith.
  rewrite prefix_append.
  rewrite <- append_assoc, !split_nl_append.
  rewrite split_nl_one_line.
  - simpl tail.
    change (split_nl "```") with ["```"].
    rewrite last_snoc.
    change (String.eqb (strip "```") "```") with true. simpl.
    rewrite removelast_last. apply join_split_nl.
  - intros Hin. apply Hlang.
    cbn in Hin.
    repeat (apply elem_of_cons in Hin as [Hin|Hin]; [discriminate Hin|]).
    exact Hin.
Qed.

Lemma unfence_removes_fence_witness :
  LLMService.unfence
    ("```" +:+ "jsx" +:+ String nl ("<button/>" +:+ String nl "```"))
  = "<button/>".
Proof.
  apply (unfence_removes_fence "jsx" "<button/>").
  vm_compute. intros H.
  repeat (apply elem_of_cons in H as [H|H]; [discriminate H|]).
  by apply elem_of_nil in H.
Defined.

(** X17: a text that consists of a fence line alone becomes empty; and
    when a text opens with a fence line and its last line is not a line of
    three backquotes, only the fence line is removed. *)
Theorem unfence_without_closing_fence (lang body : string) :
  nl ∉ String.list_ascii_of_string lang →
  LLMService.unfence ("```" +:+ lang) = "" ∧
  ((∀ l, last (split_nl body) = Some l → strip l ≠ "```") →
   LLMService.unfence ("```" +:+ lang +:+ String nl body) = body).
Proof.
  intros Hlang.
  assert (Hone : nl ∉ String.list_ascii_of_string ("```" +:+ lang)).
  { intros Hin. apply Hlang. cbn in Hin.
    repeat (apply elem_of_cons in Hin as [Hin|Hin]; [discriminate Hin|]).
    exact Hin. }
  split.
  - unfold LLMService.unfence, startswith.
    rewrite prefix_append, split_nl_one_line by done. reflexivity.
  - intros Hopen. unfold LLMService.unfence, startswith.
    rewrite prefix_append.
    rewrite <- append_assoc, split_nl_append, split_nl_one_line by done.
    simpl tail.
    pose proof (split_nl_not_nil body) as Hne.
    destruct (last (split_nl body)) as [l|] eqn:Hlast.
    + specialize (Hopen l eq_refl).
      rewrite (proj2 (String.eqb_neq _ _) Hopen). apply join_split_nl.
    + by apply last_None in Hlast.
Qed.

Lemma unfence_without_closing_fence_witness :
  LLMService.unfence ("```" +:+ "jsx") = "" ∧
  LLMService.unfence ("```" +:+ "jsx" +:+ String nl "<button/>") = "<button/>".
Proof.
  assert (Hlang : nl ∉ String.list_ascii_of_string "jsx").
  { vm_compute. intros H.
    repeat (apply elem_of_cons in H as [H|H]; [discriminate H|]).
    by apply elem_of_nil in H. }
  destruct (unfence_without_closing_fence "jsx" "<button/>" Hlang)
    as [Hfence Hopen].
  split; [exact Hfence|]. apply Hopen.
  intros l Hl. vm_compute in Hl. injection Hl as <-.
  vm_compute. intros Heq. discriminate Heq.
Defined.

Lemma rev_app_append s1 s2 : String.rev_app s1 s2 = String.rev s1 +:+ s2.
Proof.
  unfold String.rev. revert s2.
  induction s1 as [|a s1 IH]; intros s2; [done|]. simpl.
  rewrite (IH (String a s2)), (IH (String a "")).
  by rewrite append_assoc.
Qed.

Lemma rev_append s1 s2 :
  String.rev (s1 +:+ s2) = String.rev s2 +:+ String.rev s1.
Proof.
  assert (H : ∀ acc, String.rev_app (s1 +:+ s2) acc
                     = String.rev_app s2 (String.rev_app s1 acc)).
  { induction s1 as [|a s1 IH]; intros acc; [done|].
    rewrite append_cons. simpl. apply IH. }
  unfold String.rev at 1. rewrite H. apply rev_app_append.
Qed.

Lemma rev_involutive s : String.rev (String.rev s) = s.
Proof.
  assert (H : ∀ s1 s2 acc, String.rev_app (String.rev_app s1 s2) acc
                           = String.rev_app s2 (s1 +:+ acc)).
  { induction s1 as [|a s1 IH]; intros s2 acc; [done|]. simpl.
    by rewrite IH. }
  unfold String.rev. rewrite H. simpl. apply append_nil_r.
Qed.

Lemma lstrip_head s a t : lstrip s = String a t → isspace a = false.
Proof.
  induction s as [|c s IH]; simpl; [done|].
  destruct (isspace c) eqn:Hc; [exact IH|].
  by intros [= <- _].
Qed.

Lemma lstrip_suffix s : ∃ spaces, s = spaces +:+ lstrip s.
Proof.
  induction s as [|c s [spaces IH]]; [by exists ""|]. simpl.
  destruct (isspace c).
  - exists (String c spaces). by rewrite append_cons, <- IH.
  - by exists "".
Qed.

Lemma lstrip_trimmed s :
  (∀ a t, s = String a t → isspace a = false) → lstrip s = s.
Proof.
  destruct s as [|a t]; [done|]. intros H. simpl.
  by rewrite (H a t eq_refl).
Qed.

(** A stripped text neither begins nor ends with a whitespace character,
    and stripping it again changes nothing. *)
Lemma strip_trimmed (s : string) :
  (∀ a t, strip s = String a t → isspace a = false) ∧
  (∀ a t, String.rev (strip s) = String a t → isspace a = false) ∧
  strip (strip s) = strip s.
Proof.
  assert (Hfirst : ∀ a t, strip s = String a t → isspace a = false).
  { unfold strip, rstrip. intros a t Hs.
    destruct (lstrip_suffix (String.rev (lstrip s))) as [spaces Hsp].
    apply (f_equal String.rev) in Hsp.
    rewrite rev_involutive, rev_append, Hs, append_cons in Hsp.
    by apply lstrip_head in Hsp. }
  assert (Hlast : ∀ a t, String.rev (strip s) = String a t → isspace a = false).
  { unfold strip, rstrip. intros a t. rewrite rev_involutive.
    apply lstrip_head. }
  split; [exact Hfirst|]. split; [exact Hlast|].
  unfold strip at 1. rewrite (lstrip_trimmed (strip s)) by exact Hfirst.
  unfold rstrip. rewrite (lstrip_trimmed (String.rev (strip s))) by exact Hlast.
  apply rev_involutive.
Qed.

End PyMore.

(* ===================================================================== *)
(** * Properties of the endpoints and of the task as they see it *)
(* ===================================================================== *)

Module ApiSpec.
Import Py Runtime Server Api.

(** X18: the updates that the task applies are, in this order and each at
    most once, the running update, a success write and a failed write, and
    the collection changes by these alone.  A success write is applied only
    after the running update has returned.  When the task returns it has
    applied a success write or a failed write; it has applied both only
    when the store applied the success update and the call raised all the
    same.  The task raises only the exception that the update of the
    handler raises. *)
Theorem task_protocol (llm_service : LLMService.t) (job_id prompt : string)
    (env : Env) (w : World) :
  let r := process_generation llm_service job_id prompt env w in
  let running := [("status", VStr "running");
                  ("updated_at", VStr (iso_now (running_write env)))] in
  ∃ before mid last : list (list (string * value)),
    (before = [] ∨ before = [running]) ∧
    (mid = [] ∨ ∃ s, mid = [s] ∧ success_shape job_id (job_id, s)) ∧
    (last = [] ∨ ∃ f, last = [f] ∧ failed_shape job_id (job_id, f)) ∧
    writes r.2 = writes w ++ (pair job_id <$> before ++ mid ++ last) ∧
    generations_collection r.2
    = foldl (λ c f, apply_update job_id f c) (generations_collection w)
        (before ++ mid ++ last) ∧
    (mid ≠ [] → before = [running] ∧ raises (running_write env) = None) ∧
    (mid ≠ [] → last ≠ [] → applied_then_raised (success_write env)) ∧
    (r.1 = Return tt → mid ≠ [] ∨ last ≠ []) ∧
    (∀ ex, r.1 = Raise ex → raises (failed_write env) = Some ex) ∧
    (length (writes w) ≤ length (writes r.2) ≤ length (writes w) + 3)%nat.
Proof.
  intros r running. subst r.
  destruct (ServerSpec.process_generation_cases llm_service job_id prompt env w)
    as (before & mid & last & Hb & Hm & Hl & Hw & Hc & Hmb & Hboth & Hret & Hraise).
  exists before, mid, last.
  split; [exact Hb|]. split; [exact Hm|]. split; [exact Hl|].
  split; [exact Hw|]. split; [exact Hc|]. split; [exact Hmb|].
  split; [exact Hboth|]. split; [exact Hret|]. split; [exact Hraise|].
  rewrite Hw, length_app, length_fmap, !length_app.
  assert (length before ≤ 1)%nat
    by (destruct Hb as [->| ->]; simpl; lia).
  assert (length mid ≤ 1)%nat
    by (destruct Hm as [->|(s & -> & _)]; simpl; lia).
  assert (length last ≤ 1)%nat
    by (destruct Hl as [->|(f & -> & _)]; simpl; lia).
  lia.
Qed.

(** X19: whatever the store and the generation call do, the task neither
    adds nor removes a record, leaves the record of every other job as it
    is, and changes no field of its own job's record besides the status,
    the generated code, the explanation, the error message and the update
    time. *)
Theorem task_touches_only_its_result (llm_service : LLMService.t)
    (job_id prompt : string) (env : Env) (w : World) :
  let c := generations_collection w in
  let c' := generations_collection
              (process_generation llm_service job_id prompt env w).2 in
  length c' = length c ∧
  (∀ other, other ≠ job_id → find_one other c' = find_one other c) ∧
  (∀ d, find_one job_id c = Some d →
        ∃ d', find_one job_id c' = Some d' ∧
              ∀ k, k ∉ result_keys → d' !! k = d !! k).
Proof.
  intros c c'. subst c c'.
  destruct (ServerSpec.process_generation_updates llm_service job_id prompt env w)
    as (updates & Hkeys & ->).
  destruct (ServerSpec.result_updates_frame job_id updates
              (generations_collection w) Hkeys)
    as (Hlen & Hother & Hsame & Hkeep).
  split; [exact Hlen|]. split; [exact Hother|].
  intros d Hd. rewrite Hsame, Hd. simpl. eauto.
Qed.

Lemma find_one_snoc job_id c d :
  find_one job_id (c ++ [d])
  = match find_one job_id c with
    | Some found => Some found
    | None => if matches job_id d then Some d else None
    end.
Proof.
  induction c as [|d' c IH]; simpl; [done|].
  by destruct (matches job_id d').
Qed.

Lemma generation_doc_matches job_id other prompt created_at updated_at :
  matches other (generation_doc job_id prompt created_at updated_at)
  = bool_decide (other = job_id).
Proof.
  unfold matches.
  change (generation_doc job_id prompt created_at updated_at !! "job_id")
    with (Some (VStr job_id)).
  destruct (decide (other = job_id)) as [->|Hne].
  - by rewrite !bool_decide_eq_true_2.
  - rewrite !bool_decide_eq_false_2; [done..|]. congruence.
Qed.

(** X20: a job id that no record has is answered by 404; once [generate_ui]
    has inserted its record, the status query shows the job as pending,
    with its prompt and creation time and without code, explanation or
    error message; and the status of every other job is answered as
    before. *)
Theorem submitted_job_is_pending (job_id prompt created_at updated_at : string)
    (env : Env) (w : World) :
  find_one job_id (generations_collection w) = None →
  ∃ w1,
    generate_ui job_id created_at updated_at None prompt env w
    = (Return (GenerateResponse.mk job_id "pending" "Generation job started",
               (job_id, prompt)), w1) ∧
    get_job_status None job_id w = inl (HTTPException 404 "Job not found") ∧
    get_job_status None job_id w1
    = inr (JobStatusResponse.mk job_id "pending" None None None (Some prompt)
             created_at) ∧
    ∀ other, other ≠ job_id →
             get_job_status None other w1 = get_job_status None other w.
Proof.
  intros Hfresh. eexists. split; [reflexivity|].
  unfold get_job_status. simpl. rewrite Hfresh.
  split; [done|]. split.
  - rewrite find_one_snoc, Hfresh, generation_doc_matches.
    rewrite bool_decide_eq_true_2 by done. reflexivity.
  - intros other Hne. rewrite find_one_snoc, generation_doc_matches.
    rewrite bool_decide_eq_false_2 by done.
    by destruct (find_one other (generations_collection w)).
Qed.

Lemma submitted_job_is_pending_witness :
  ∃ w1,
    generate_ui "job-2" "2026-01-01T00:00:05+00:00" "2026-01-01T00:00:05+00:00"
      None "a card" Scenario.answering (Scenario.submitted Scenario.fresh_breaker)
    = (Return (GenerateResponse.mk "job-2" "pending" "Generation job started",
               ("job-2", "a card")), w1) ∧
    get_job_status None "job-2" (Scenario.submitted Scenario.fresh_breaker)
    = inl (HTTPException 404 "Job not found") ∧
    get_job_status None "job-2" w1
    = inr (JobStatusResponse.mk "job-2" "pending" None None None (Some "a card")
             "2026-01-01T00:00:05+00:00") ∧
    ∀ other, other ≠ "job-2" →
             get_job_status None other w1
             = get_job_status None other (Scenario.submitted Scenario.fresh_breaker).
Proof.
  apply (submitted_job_is_pending "job-2" "a card" "2026-01-01T00:00:05+00:00"
           "2026-01-01T00:00:05+00:00" Scenario.answering
           (Scenario.submitted Scenario.fresh_breaker)).
  reflexivity.
Defined.

(** X21: when [generate_ui] has inserted the record of a new job and the
    task has run, the update of the exception handler not raising, the
    status query shows the job with its prompt and creation time, and as a
    success with code and explanation and without error message, or as
    failed with an error message and without code or explanation, or, only
    when the store applied the success update and the call raised all the
    same, as failed with an error message and with the code and the
    explanation of the success write. *)
Theorem finished_job_is_terminal (llm_service : LLMService.t)
    (job_id prompt created_at updated_at : string) (env : Env) (w : World) :
  find_one job_id (generations_collection w) = None →
  raises (failed_write env) = None →
  let w1 := (generate_ui job_id created_at updated_at None prompt env w).2 in
  let w2 := (process_generation llm_service job_id prompt env w1).2 in
  ∃ response,
    get_job_status None job_id w2 = inr response ∧
    JobStatusResponse.job_id response = job_id ∧
    JobStatusResponse.prompt response = Some prompt ∧
    JobStatusResponse.created_at response = created_at ∧
    ((JobStatusResponse.status response = "success" ∧
      is_Some (JobStatusResponse.generated_code response) ∧
      is_Some (JobStatusResponse.explanation response) ∧
      JobStatusResponse.error_message response = None) ∨
     (JobStatusResponse.status response = "failed" ∧
      is_Some (JobStatusResponse.error_message response) ∧
      JobStatusResponse.generated_code response = None ∧
      JobStatusResponse.explanation response = None) ∨
     (applied_then_raised (success_write env) ∧
      JobStatusResponse.status response = "failed" ∧
      is_Some (JobStatusResponse.error_message response) ∧
      is_Some (JobStatusResponse.generated_code response) ∧
      is_Some (JobStatusResponse.explanation response))).
Proof.
  intros Hfresh Hfail w1 w2. subst w2.
  destruct (ServerSpec.process_generation_cases llm_service job_id prompt env w1)
    as (before & mid & last & Hb & Hm & Hl & _ & Hc & _ & Hboth & Hret & Hraise).
  assert (Hreturns : (process_generation llm_service job_id prompt env w1).1
                     = Return tt).
  { destruct ((process_generation llm_service job_id prompt env w1).1)
      as [[]|ex] eqn:Hrun; [done|].
    specialize (Hraise ex eq_refl). congruence. }
  specialize (Hret Hreturns).
  pose proof (ServerSpec.run_keys job_id (VStr (iso_now (running_write env)))
                before mid last Hb Hm Hl) as Hkeys.
  destruct (ServerSpec.result_updates_frame job_id (before ++ mid ++ last)
              (generations_collection w1) Hkeys) as (_ & _ & Hsame & _).
  assert (Hdoc : find_one job_id (generations_collection w1)
                 = Some (generation_doc job_id prompt created_at updated_at)).
  { subst w1. simpl. rewrite find_one_snoc, Hfresh, generation_doc_matches.
    by rewrite bool_decide_eq_true_2. }
  unfold get_job_status. rewrite Hc, Hsame, Hdoc. simpl.
  destruct Hm as [->|(s & -> & (c & e & t & [= ->]))];
    destruct Hl as [->|(f & -> & (m & t' & [= ->]))].
  - by destruct Hret.
  - destruct Hb as [->| ->];
      eexists; (split; [reflexivity|]); simpl;
      (split; [done|]); (split; [done|]); (split; [done|]);
      right; left; repeat split; eauto.
  - destruct Hb as [->| ->];
      eexists; (split; [reflexivity|]); simpl;
      (split; [done|]); (split; [done|]); (split; [done|]);
      left; repeat split; eauto.
  - assert (Hlost : applied_then_raised (success_write env))
      by (by apply Hboth).
    destruct Hb as [->| ->];
      eexists; (split; [reflexivity|]); simpl;
      (split; [done|]); (split; [done|]); (split; [done|]);
      right; right; (split; [exact Hlost|]); repeat split; eauto.
Qed.

Lemma finished_job_is_terminal_witness :
  let w := set_collection [] (Scenario.submitted Scenario.fresh_breaker) in
  let w1 := (generate_ui "job-1" "2026-01-01T00:00:00+00:00"
               "2026-01-01T00:00:00+00:00" None "a button"
               Scenario.acknowledgement_lost w).2 in
  let w2 := (process_generation Scenario.with_key "job-1" "a button"
               Scenario.acknowledgement_lost w1).2 in
  ∃ response,
    get_job_status None "job-1" w2 = inr response ∧
    JobStatusResponse.job_id response = "job-1" ∧
    JobStatusResponse.prompt response = Some "a button" ∧
    JobStatusResponse.created_at response = "2026-01-01T00:00:00+00:00" ∧
    ((JobStatusResponse.status response = "success" ∧
      is_Some (JobStatusResponse.generated_code response) ∧
      is_Some (JobStatusResponse.explanation response) ∧
      JobStatusResponse.error_message response = None) ∨
     (JobStatusResponse.status response = "failed" ∧
      is_Some (JobStatusResponse.error_message response) ∧
      JobStatusResponse.generated_code response = None ∧
      JobStatusResponse.explanation response = None) ∨
     (applied_then_raised (success_write Scenario.acknowledgement_lost) ∧
      JobStatusResponse.status response = "failed" ∧
      is_Some (JobStatusResponse.error_message response) ∧
      is_Some (JobStatusResponse.generated_code response) ∧
      is_Some (JobStatusResponse.explanation response))).
Proof.
  apply (finished_job_is_terminal Scenario.with_key "job-1" "a button"
           "2026-01-01T00:00:00+00:00" "2026-01-01T00:00:00+00:00"
           Scenario.acknowledgement_lost
           (set_collection [] (Scenario.submitted Scenario.fresh_breaker)));
    reflexivity.
Defined.

(** The three outcomes of X21 in the scenarios: a success; a failure
    without code once the generation has failed three times; and, with the
    acknowledgement of the success update lost, a failure that shows the
    generated code. *)
Example finished_job_scenarios :
  let shown env llm_service :=
    match get_job_status None "job-1"
            (process_generation llm_service "job-1" "a button" env
               (Scenario.submitted Scenario.fresh_breaker)).2 with
    | inr response =>
        Some (JobStatusResponse.status response,
              JobStatusResponse.generated_code response,
              bool_decide (is_Some (JobStatusResponse.error_message response)))
    | inl _ => None
    end in
  shown Scenario.answering Scenario.with_key
  = Some ("success", Some "<button/>", false) ∧
  shown Scenario.answering Scenario.without_key
  = Some ("failed", None, true) ∧
  shown Scenario.acknowledgement_lost Scenario.with_key
  = Some ("failed", Some "<button/>", true).
Proof. repeat split. Qed.

Section MiddlewareSpec.
Context {Response AppState : Type}.
Variable call_next : Request → AppState → Response * AppState.
Variable JSONResponse : Z → list (string * json) → list (string * string) → Response.
Variable set_header : string → string → Response → Response.

Let too_many : Response :=
  JSONResponse 429
    [("error", JStr "Rate limit exceeded");
     ("message", JStr "Too many requests. Please try again in a minute.");
     ("retry_after", JInt 60)]
    [("Retry-After", "60")].

(** Omitting [max_requests] is passing the default, when it is not 0. *)
Lemma check_default current_time now rl identifier window_seconds :
  RateLimiter.max_requests_per_minute rl ≠ 0 →
  RateLimiter.check_rate_limit current_time now rl identifier None window_seconds
  = RateLimiter.check_rate_limit current_time now rl identifier
      (Some (RateLimiter.max_requests_per_minute rl)) window_seconds.
Proof.
  intros Hne. unfold RateLimiter.check_rate_limit, py_or.
  by rewrite decide_False.
Qed.

(** A request that the limiter admits goes to the application, and the
    response tells what is left of the quota. *)
Lemma middleware_admits current_time now request rl app :
  path request ≠ "/api/health" →
  let key := default "unknown" (client_host request) in
  let limit := RateLimiter.max_requests_per_minute rl in
  Forall (λ ts, now - 60 < ts) (RateLimiter.timestamps rl key) →
  Z.of_nat (length (RateLimiter.timestamps rl key)) < limit →
  limit ≠ 0 →
  rate_limit_middleware call_next JSONResponse set_header current_time now
    request rl app
  = (set_header "X-RateLimit-Remaining"
       (pretty (limit - Z.of_nat (length (RateLimiter.timestamps rl key)) - 1))
       (call_next request app).1,
     RateLimiter.set_timestamps key
       (RateLimiter.timestamps rl key ++ [current_time]) rl,
     (call_next request app).2).
Proof.
  intros Hpath key limit Hlive Hlt Hne.
  unfold rate_limit_middleware.
  rewrite (proj2 (String.eqb_neq _ _) Hpath).
  fold key. rewrite check_default by done.
  rewrite RateLimiterSpec.check_admitted by done. simpl.
  by destruct (call_next request app).
Qed.

(** A request that finds the quota used up is answered at once. *)
Lemma middleware_rejects current_time now request rl app :
  path request ≠ "/api/health" →
  let key := default "unknown" (client_host request) in
  let limit := RateLimiter.max_requests_per_minute rl in
  Forall (λ ts, now - 60 < ts) (RateLimiter.timestamps rl key) →
  limit ≤ Z.of_nat (length (RateLimiter.timestamps rl key)) →
  limit ≠ 0 →
  rate_limit_middleware call_next JSONResponse set_header current_time now
    request rl app
  = (too_many,
     RateLimiter.set_timestamps key (RateLimiter.timestamps rl key) rl,
     app).
Proof.
  intros Hpath key limit Hlive Hle Hne.
  unfold rate_limit_middleware.
  rewrite (proj2 (String.eqb_neq _ _) Hpath).
  fold key. rewrite check_default by done.
  by rewrite RateLimiterSpec.check_rejected.
Qed.

Lemma serve_live request clock : ∀ rl app,
  path request ≠ "/api/health" →
  let key := default "unknown" (client_host request) in
  let limit := RateLimiter.max_requests_per_minute rl in
  (∀ p, p ∈ clock →
     Forall (λ ts, p.2 - 60 < ts) (RateLimiter.timestamps rl key)) →
  (∀ p q, p ∈ clock → q ∈ clock → q.2 - 60 < p.1) →
  Z.of_nat (length (RateLimiter.timestamps rl key)) + Z.of_nat (length clock)
    ≤ limit →
  ∃ rl',
    serve call_next JSONResponse set_header
      ((λ c, (c.1, c.2, request)) <$> clock) rl app
    = (zip_with
         (λ k response,
            set_header "X-RateLimit-Remaining" (pretty (limit - k)) response)
         (seqZ (Z.of_nat (length (RateLimiter.timestamps rl key)) + 1)
               (Z.of_nat (length clock)))
         (handle_all call_next (replicate (length clock) request) app).1,
       rl',
       (handle_all call_next (replicate (length clock) request) app).2) ∧
    RateLimiter.timestamps rl' key = RateLimiter.timestamps rl key ++ clock.*1 ∧
    RateLimiter.max_requests_per_minute rl' = limit.
Proof.
  induction clock as [|[t now] clock IH]; intros rl app Hpath key limit Hold Hnew Hlen.
  - exists rl. simpl. by rewrite app_nil_r.
  - simpl length in Hlen.
    assert (Hin : (t, now) ∈ (t, now) :: clock) by left.
    pose proof (Hold _ Hin) as Hlive. simpl in Hlive.
    rewrite fmap_cons. cbn [serve]. simpl fst. simpl snd.
    rewrite middleware_admits; [|done|done|fold key limit; lia|fold limit; lia].
    fold key limit.
    set (rl1 := RateLimiter.set_timestamps key
                  (RateLimiter.timestamps rl key ++ [t]) rl).
    assert (Hts : RateLimiter.timestamps rl1 key
                  = RateLimiter.timestamps rl key ++ [t])
      by apply RateLimiterSpec.timestamps_set.
    destruct (call_next request app) as [response app1] eqn:Hcall.
    destruct (IH rl1 app1 Hpath) as (rl' & Hrun & Hfin & Hlim).
    + intros p Hp. fold key. rewrite Hts. apply Forall_app. split.
      * apply Hold. by right.
      * constructor; [|constructor]. apply (Hnew (t, now) p); [left | by right].
    + intros p q Hp Hq. apply Hnew; by right.
    + fold key. rewrite Hts, length_app. simpl. lia.
    + fold key in Hrun, Hfin. simpl in Hlim. fold limit in Hlim, Hrun.
      exists rl'. cbn [fst snd]. rewrite Hrun.
      destruct (handle_all call_next (replicate (length clock) request) app1)
        as [responses app2].
      simpl. split; [|split].
      * rewrite Hts, length_app. simpl length.
        rewrite (seqZ_cons _ (Z.of_nat (S (length clock)))) by lia.
        simpl zip_with.
        replace (Z.succ (Z.of_nat (length (RateLimiter.timestamps rl key)) + 1))
          with (Z.of_nat (length (RateLimiter.timestamps rl key) + 1) + 1) by lia.
        replace (Z.pred (Z.of_nat (S (length clock))))
          with (Z.of_nat (length clock)) by lia.
        replace (limit - Z.of_nat (length (RateLimiter.timestamps rl key)) - 1)
          with (limit - (Z.of_nat (length (RateLimiter.timestamps rl key)) + 1))
          by lia.
        reflexivity.
      * rewrite Hfin, Hts. simpl. by rewrite <- app_assoc.
      * exact Hlim.
Qed.

(** X22: requests for a path other than the health check, from one host
    (or all without a client address), that use up the default quota
    within one window of 60 seconds all reach the application, and their
    responses carry the remaining quota, down to 0.  One more such
    request in the window is answered with the 429 response and does not
    reach the application; a health check at that moment still does, and
    the limiter is not consulted for it. *)
Theorem host_quota_is_enforced (rl : RateLimiter.t) (app : AppState)
    (request health : Request) (clock : list (Z * Z)) (extra : Z * Z) (t0 : Z) :
  let key := default "unknown" (client_host request) in
  let limit := RateLimiter.max_requests_per_minute rl in
  path request ≠ "/api/health" →
  path health = "/api/health" →
  1 ≤ limit →
  Z.of_nat (length clock) = limit →
  Forall (λ r, t0 ≤ r < t0 + 60) (RateLimiter.readings (clock ++ [extra])) →
  Forall (λ ts, ts ≤ t0 - 60) (RateLimiter.timestamps rl key) →
  let handled := handle_all call_next (replicate (length clock) request) app in
  ∃ rl' rl'',
    serve call_next JSONResponse set_header
      ((λ c, (c.1, c.2, request)) <$> clock) rl app
    = (zip_with
         (λ k response,
            set_header "X-RateLimit-Remaining" (pretty (limit - k)) response)
         (seqZ 1 limit) handled.1,
       rl', handled.2) ∧
    rate_limit_middleware call_next JSONResponse set_header extra.1 extra.2
      request rl' handled.2
    = (too_many, rl'', handled.2) ∧
    rate_limit_middleware call_next JSONResponse set_header extra.1 extra.2
      health rl' handled.2
    = ((call_next health handled.2).1, rl', (call_next health handled.2).2).
Proof.
  intros key limit Hpath Hhealth Hlimit Hlen Hwin Hold handled.
  rewrite RateLimiterSpec.readings_app in Hwin.
  apply Forall_app in Hwin as [Hclock Hextra].
  assert (Hex : t0 ≤ extra.2 < t0 + 60).
  { apply (RateLimiterSpec.readings_in_window t0 60 [extra] extra); [done | left]. }
  destruct clock as [|[t now] clock]; [simpl in Hlen; lia|].
  assert (Hfirst : t0 ≤ t < t0 + 60 ∧ t0 ≤ now < t0 + 60).
  { apply (RateLimiterSpec.readings_in_window t0 60 ((t, now) :: clock) (t, now));
      [done | left]. }
  (* the first request finds nothing in the window *)
  assert (Hreq1 :
    rate_limit_middleware call_next JSONResponse set_header t now request rl app
    = (set_header "X-RateLimit-Remaining" (pretty (limit - 1))
         (call_next request app).1,
       RateLimiter.set_timestamps key [t] rl,
       (call_next request app).2)).
  { unfold rate_limit_middleware.
    rewrite (proj2 (String.eqb_neq _ _) Hpath).
    fold key. rewrite check_default by (fold limit; lia). fold limit.
    unfold RateLimiter.check_rate_limit, RateLimiter._clean_old_requests, py_or.
    rewrite decide_False by lia.
    rewrite RateLimiterSpec.filter_none
      by (eapply Forall_impl; [exact Hold | simpl; intros; lia]).
    rewrite RateLimiterSpec.timestamps_set. simpl.
    rewrite bool_decide_eq_false_2 by lia.
    rewrite RateLimiterSpec.set_timestamps_twice. simpl.
    destruct (call_next request app) as [response app1]. simpl.
    by replace (limit - Z.of_nat 0 - 1) with (limit - 1) by lia. }
  set (rl1 := RateLimiter.set_timestamps key [t] rl).
  assert (Hts1 : RateLimiter.timestamps rl1 key = [t])
    by apply RateLimiterSpec.timestamps_set.
  simpl length in Hlen.
  subst handled. simpl replicate. cbn [handle_all].
  rewrite fmap_cons. cbn [serve]. simpl fst. simpl snd.
  rewrite Hreq1.
  destruct (call_next request app) as [response app1] eqn:Hcall. simpl.
  destruct (serve_live request clock rl1 app1 Hpath) as (rl' & Hrun & Hfin & Hlim).
  { intros p Hp. fold key. rewrite Hts1. constructor; [|constructor].
    destruct (RateLimiterSpec.readings_in_window t0 60 ((t, now) :: clock) p);
      [done | by right |].
    simpl in *. lia. }
  { intros p q Hp Hq.
    destruct (RateLimiterSpec.readings_in_window t0 60 ((t, now) :: clock) p);
      [done | by right |].
    destruct (RateLimiterSpec.readings_in_window t0 60 ((t, now) :: clock) q);
      [done | by right |].
    simpl in *. lia. }
  { fold key. rewrite Hts1. simpl. fold limit. lia. }
  fold key in Hrun, Hfin. rewrite Hts1 in Hrun, Hfin.
  simpl in Hlim, Hrun, Hfin. fold limit in Hlim, Hrun.
  subst rl1.
  destruct (handle_all call_next (replicate (length clock) request) app1)
    as [responses app2]. cbn [fst snd] in *.
  exists rl', (RateLimiter.set_timestamps key (RateLimiter.timestamps rl' key) rl').
  rewrite Hrun. cbn [fst snd].
  split; [|split].
  - rewrite (seqZ_cons 1 limit) by lia. simpl zip_with.
    replace (Z.pred limit) with (Z.of_nat (length clock)) by lia.
    reflexivity.
  - apply middleware_rejects; [done| | |].
    + fold key. rewrite Hfin. constructor; [lia|].
      apply Forall_forall. intros ts Hts'.
      apply list_elem_of_fmap in Hts' as (p & -> & Hp).
      destruct (RateLimiterSpec.readings_in_window t0 60 ((t, now) :: clock) p);
        [done | by right |].
      simpl in *. lia.
    + fold key. rewrite Hfin, Hlim. simpl length. rewrite length_fmap. lia.
    + rewrite Hlim. lia.
  - unfold rate_limit_middleware. rewrite Hhealth. simpl.
    by destruct (call_next health app2).
Qed.
End MiddlewareSpec.

Lemma host_quota_is_enforced_witness :
  let request := {| path := "/api/generate"; client_host := Some "10.0.0.1" |} in
  let health := {| path := "/api/health"; client_host := Some "10.0.0.1" |} in
  ∃ rl' rl'',
    serve counting_app plain_json add_header
      [(0, 0, request); (1, 1, request)] (RateLimiter.init 2) 0%nat
    = ([(200, [("X-RateLimit-Remaining", "1")]);
        (200, [("X-RateLimit-Remaining", "0")])], rl', 2%nat) ∧
    rate_limit_middleware counting_app plain_json add_header 2 2 request rl' 2%nat
    = ((429, [("Retry-After", "60")]), rl'', 2%nat) ∧
    rate_limit_middleware counting_app plain_json add_header 2 2 health rl' 2%nat
    = ((200, []), rl', 3%nat).
Proof.
  apply (host_quota_is_enforced counting_app plain_json add_header
           (RateLimiter.init 2) 0%nat
           {| path := "/api/generate"; client_host := Some "10.0.0.1" |}
           {| path := "/api/health"; client_host := Some "10.0.0.1" |}
           [(0, 0); (1, 1)] (2, 2) 0).
  - discriminate.
  - reflexivity.
  - simpl. lia.
  - reflexivity.
  - repeat constructor; simpl; lia.
  - constructor.
Defined.

End ApiSpec.

(* ===================================================================== *)
(** * What a returned generation looks like *)
(* ===================================================================== *)

Module GeneratedCode.
Import Py Runtime LLMService.

Lemma body_returns self prompt request_id env w v w1 :
  generate_ui_code_body self prompt request_id env w = (Return v, w1) →
  ∃ text,
    code v = strip text ∧
    explanation v = "Generated React component based on: " +:+ prompt.
Proof.
  LLMServiceMore.unfold_body.
  repeat (case_match; simpl in *; simplify_eq); intros; simplify_eq; eauto.
Qed.

Lemma retry_returns {A} remaining : ∀ attempt_number (fn : M A) env w v w',
  retry_from remaining attempt_number fn env w = (Return v, w') →
  ∃ w0 w1, fn env w0 = (Return v, w1).
Proof.
  induction remaining as [|remaining IH]; intros attempt_number fn env w v w' Hrun.
  - eauto.
  - simpl in Hrun. unfold try_except in Hrun.
    destruct (fn env w) as [[a|e] w1] eqn:Hfn.
    + injection Hrun as -> ->. eauto.
    + destruct (is_LLMServiceError e); [|discriminate].
      unfold bind, sleep, modify in Hrun. simpl in Hrun.
      by apply IH in Hrun.
Qed.

(** X23: whenever [generate_ui_code] returns, the explanation is the fixed
    sentence followed by the prompt, and the code neither begins nor ends
    with a whitespace character. *)
Theorem returned_code_is_trimmed (self : t) (prompt request_id : string)
    (env : Env) (w w' : World) (v : generated) :
  generate_ui_code self prompt request_id env w = (Return v, w') →
  explanation v = "Generated React component based on: " +:+ prompt ∧
  (∀ a rest, code v = String a rest → isspace a = false) ∧
  (∀ a rest, String.rev (code v) = String a rest → isspace a = false).
Proof.
  intros Hrun. apply retry_returns in Hrun as (w0 & w1 & Hbody).
  apply body_returns in Hbody as (text & Hcode & Hexp).
  split; [exact Hexp|]. rewrite Hcode.
  destruct (PyMore.strip_trimmed text) as (Hfirst & Hlast & _). by split.
Qed.

Lemma returned_code_is_trimmed_witness :
  let v := {| code := "<button/>";
              explanation := "Generated React component based on: a button" |} in
  explanation v = "Generated React component based on: " +:+ "a button" ∧
  (∀ a rest, code v = String a rest → isspace a = false) ∧
  (∀ a rest, String.rev (code v) = String a rest → isspace a = false).
Proof.
  apply (returned_code_is_trimmed Scenario.with_key "a button" "job-1"
           Scenario.answering (Scenario.submitted Scenario.fresh_breaker)
           (generate_ui_code Scenario.with_key "a button" "job-1"
              Scenario.answering (Scenario.submitted Scenario.fresh_breaker)).2).
  reflexivity.
Defined.

End GeneratedCode.
